(** * The pool model of the token-swap front end

    A shallow embedding of [src/api/pool/Pool.ts] and of the reducer of
    [src/features/GlobalSlice.tsx]: the constant-product pricing of a pool
    snapshot ([calculateAmountInOtherToken] and the conversions built on
    it), the spot rate, the pool-token conversions, the (de)serialisation
    of a snapshot, and the bookkeeping of the store's global slice.

    TypeScript's [number] is the binary64 format.  A number is embedded as
    the rational it denotes, or one of the two infinities, or NaN, and each
    arithmetic operation returns the exact result rounded to the nearest
    binary64 value, ties to even, with overflow to an infinity, as the
    language defines it.  The sign of zero is not kept. *)

From Stdlib Require Import ZArith QArith Qround Qabs Qpower Qreduction Qcanon.
From Stdlib Require Import Bool String Lia Lqa.
From Stdlib Require Import List.
Import ListNotations.

Open Scope Q_scope.

(** ** Numbers *)

Inductive number : Type :=
| Fin (q : Q)
| PosInf
| NegInf
| NaN.

Declare Scope number_scope.
Delimit Scope number_scope with num.
Bind Scope number_scope with number.

(** *** Rounding to binary64

    [rne] rounds a rational to the nearest integer, ties to the even one. *)
Definition rne (x : Q) : Z :=
  let f := Qfloor x in
  match Qcompare (x - inject_Z f) (1 # 2) with
  | Lt => f
  | Gt => (f + 1)%Z
  | Eq => if Z.even f then f else (f + 1)%Z
  end.

(** The binade of a positive rational: [2 ^ expo q <= q < 2 ^ (expo q + 1)]. *)
Definition expo (q : Q) : Z :=
  if Qle_bool 1 q then Z.log2 (Qfloor q) else (- Z.log2_up (Qceiling (/ q)))%Z.

(** The exponent of the last place of the binary64 values of that binade:
    52 places below the leading one, and never below that of the
    subnormal values. *)
Definition kexp (q : Q) : Z := Z.max (expo q - 52) (-1074).

Definition mant (q : Q) : Z := rne (q / 2 ^ kexp q).

Definition val (q : Q) : Q := inject_Z (mant q) * 2 ^ kexp q.

(** The rounding of a positive rational: the nearest multiple of the last
    place, and infinity from [2 ^ 1024] on. *)
Definition round_pos (q : Q) : number :=
  if Qle_bool (2 ^ 1024) (val q) then PosInf else Fin (Qred (val q)).

Definition neg (x : number) : number :=
  match x with
  | Fin a => Fin (- a)
  | PosInf => NegInf
  | NegInf => PosInf
  | NaN => NaN
  end.

Definition round64 (q : Q) : number :=
  match Qcompare q 0 with
  | Eq => Fin 0
  | Gt => round_pos q
  | Lt => neg (round_pos (- q))
  end.

(** A rational that is a binary64 value: rounding leaves it as it is. *)
Definition double (q : Q) : Prop :=
  exists q' : Q, round64 q = Fin q' /\ q' == q.

(** *** The operations of the language *)

(** The infinity that a non-zero value of the given sign produces; a zero
    factor or a zero dividend produces NaN. *)
Definition signedInf (c : comparison) : number :=
  match c with
  | Gt => PosInf
  | Lt => NegInf
  | Eq => NaN
  end.

Definition add (x y : number) : number :=
  match x, y with
  | NaN, _ | _, NaN => NaN
  | Fin a, Fin b => round64 (a + b)
  | PosInf, NegInf | NegInf, PosInf => NaN
  | PosInf, _ | _, PosInf => PosInf
  | NegInf, _ | _, NegInf => NegInf
  end.

Definition sub (x y : number) : number := add x (neg y).

Definition mul (x y : number) : number :=
  match x, y with
  | NaN, _ | _, NaN => NaN
  | Fin a, Fin b => round64 (a * b)
  | Fin a, PosInf | PosInf, Fin a => signedInf (a ?= 0)
  | Fin a, NegInf | NegInf, Fin a => signedInf (0 ?= a)
  | PosInf, PosInf | NegInf, NegInf => PosInf
  | PosInf, NegInf | NegInf, PosInf => NegInf
  end.

Definition div (x y : number) : number :=
  match x, y with
  | NaN, _ | _, NaN => NaN
  | Fin a, Fin b => if Qeq_bool b 0 then signedInf (a ?= 0) else round64 (a / b)
  | Fin _, (PosInf | NegInf) => Fin 0
  | PosInf, Fin b => if Qle_bool 0 b then PosInf else NegInf
  | NegInf, Fin b => if Qle_bool 0 b then NegInf else PosInf
  | (PosInf | NegInf), (PosInf | NegInf) => NaN
  end.

(** [x > y] of the language: false as soon as one side is NaN. *)
Definition gt (x y : number) : bool :=
  match x, y with
  | NaN, _ | _, NaN => false
  | Fin a, Fin b => negb (Qle_bool a b)
  | PosInf, PosInf => false
  | PosInf, _ => true
  | _, PosInf => false
  | NegInf, _ => false
  | Fin _, NegInf => true
  end.

Definition Math_ceil (x : number) : number :=
  match x with
  | Fin a => Fin (inject_Z (Qceiling a))
  | _ => x
  end.

Definition Math_floor (x : number) : number :=
  match x with
  | Fin a => Fin (inject_Z (Qfloor a))
  | _ => x
  end.

Infix "+" := add : number_scope.
Infix "-" := sub : number_scope.
Infix "*" := mul : number_scope.
Infix "/" := div : number_scope.
Infix ">" := gt : number_scope.

(** [x <= y] of the language, as a proposition (NaN is below nothing). *)
Definition number_le (x y : number) : Prop :=
  match x, y with
  | NaN, _ | _, NaN => False
  | Fin a, Fin b => a <= b
  | NegInf, _ | _, PosInf => True
  | _, _ => False
  end.

(** ** Exceptions *)

Inductive exn : Type :=
| AssertionError (message : string)
| Error (message : string).

Inductive result (A : Type) : Type :=
| Ok (a : A)
| Throw (e : exn).

Arguments Ok {A} a.
Arguments Throw {A} e.

Definition bind {A B : Type} (r : result A) (k : A -> result B) : result B :=
  match r with
  | Ok a => k a
  | Throw e => Throw e
  end.

Notation "x <- r ;; k" := (bind r (fun x => k))
  (at level 61, r at next level, right associativity).

(** [assert(value, message)] of Node's [assert] module. *)
Definition assert (value : bool) (message : string) : result unit :=
  if value then Ok tt else Throw (AssertionError message).

(** ** The token layer

    [Pool.ts] imports [PublicKey] from the ledger's client library and
    [Token] and [TokenAccount] from its sibling modules.  The pool reads a
    token account's [mint] and [balance], compares tokens with [equals], and
    (de)serialises each component through the component's own functions; a
    constructor or a [from] may throw.  Those are the members of this
    interface. *)

Class TokenLayer : Type := {
  PublicKey : Type;
  Token : Type;
  TokenAccount : Type;
  SerializableToken : Type;
  SerializableTokenAccount : Type;
  Token_equals : Token -> Token -> bool;
  mint : TokenAccount -> Token;
  balance : TokenAccount -> number;
  toBase58 : PublicKey -> string;
  PublicKey_new : string -> result PublicKey;
  Token_serialize : Token -> SerializableToken;
  Token_from : SerializableToken -> result Token;
  TokenAccount_serialize : TokenAccount -> SerializableTokenAccount;
  TokenAccount_from : SerializableTokenAccount -> result TokenAccount
}.

Section PoolModel.

Context `{TokenLayer}.

Record SerializablePool : Type := {
  s_address : string;
  s_tokenA : SerializableTokenAccount;
  s_tokenB : SerializableTokenAccount;
  s_poolToken : SerializableToken;
  s_programId : string;
  s_nonce : number;
  s_feeRatio : number
}.

Record Pool : Type := {
  address : PublicKey;
  tokenA : TokenAccount;
  tokenB : TokenAccount;
  poolToken : Token;
  programId : PublicKey;
  nonce : number;
  feeRatio : number
}.

Definition simpleRate (this : Pool) : number :=
  if (balance (tokenA this) > Fin 0)%num
  then (balance (tokenB this) / balance (tokenA this))%num
  else Fin 0.

Definition getLiquidity (this : Pool) : number := balance (tokenA this).

(** The local constants of [calculateAmountInOtherToken], in the order in
    which the function binds them. *)
Record SwapSteps : Type := {
  invariant : number;
  newFromAmountInPool : number;
  newToAmountInPool : number;
  grossToAmount : number;
  fees : number
}.

Definition swapSteps (fromAmountInPool toAmountInPool feeRatio inputAmount : number)
  : SwapSteps :=
  let invariant := (fromAmountInPool * toAmountInPool)%num in
  let newFromAmountInPool := (fromAmountInPool + inputAmount)%num in
  let newToAmountInPool := (invariant / newFromAmountInPool)%num in
  let grossToAmount := Math_ceil (toAmountInPool - newToAmountInPool)%num in
  let fees := Math_floor (grossToAmount * feeRatio)%num in
  {| invariant := invariant;
     newFromAmountInPool := newFromAmountInPool;
     newToAmountInPool := newToAmountInPool;
     grossToAmount := grossToAmount;
     fees := fees |}.

Definition InvalidAsset : exn :=
  AssertionError "Input token must be either pool token A or B".

Definition isReverse (this : Pool) (inputToken : Token) : bool :=
  Token_equals (mint (tokenB this)) inputToken.

Definition fromAmountInPool (this : Pool) (inputToken : Token) : number :=
  if isReverse this inputToken then balance (tokenB this) else balance (tokenA this).

Definition toAmountInPool (this : Pool) (inputToken : Token) : number :=
  if isReverse this inputToken then balance (tokenA this) else balance (tokenB this).

Definition calculateSteps (this : Pool) (inputToken : Token) (inputAmount : number)
  : SwapSteps :=
  swapSteps (fromAmountInPool this inputToken) (toAmountInPool this inputToken)
    (feeRatio this) inputAmount.

Definition calculateAmountInOtherToken
  (this : Pool) (inputToken : Token) (inputAmount : number) : result number :=
  _ <- assert
         (Token_equals inputToken (mint (tokenA this))
          || Token_equals inputToken (mint (tokenB this)))
         "Input token must be either pool token A or B" ;;
  let steps := calculateSteps this inputToken inputAmount in
  Ok (grossToAmount steps - fees steps)%num.

Definition calculateTokenAAmount (this : Pool) (tokenBAmount : number) : result number :=
  calculateAmountInOtherToken this (mint (tokenB this)) tokenBAmount.

Definition calculateTokenBAmount (this : Pool) (tokenAAmount : number) : result number :=
  calculateAmountInOtherToken this (mint (tokenA this)) tokenAAmount.

Definition impliedRate (this : Pool) (fromToken : Token) (fromAmount : number)
  : result number :=
  swappedAmount <- calculateAmountInOtherToken this fromToken fromAmount ;;
  Ok (if (fromAmount > Fin 0)%num then (swappedAmount / fromAmount)%num else Fin 0).

Definition getTokenAValueOfPoolTokenAmount (this : Pool) (poolTokenAmount : number)
  : number := poolTokenAmount.

Definition getTokenBValueOfPoolTokenAmount (this : Pool) (poolTokenAmount : number)
  : result number :=
  calculateTokenBAmount this (getTokenAValueOfPoolTokenAmount this poolTokenAmount).

Definition getPoolTokenValueOfTokenAAmount (this : Pool) (tokenAAmount : number)
  : number := tokenAAmount.

Definition getPoolTokenValueOfTokenBAmount (this : Pool) (tokenBAmount : number)
  : number :=
  getPoolTokenValueOfTokenAAmount this
    (getTokenAValueOfPoolTokenAmount this tokenBAmount).

Definition matches (this : Pool) (fromTokenAccount toTokenAccount : TokenAccount) : bool :=
  (Token_equals (mint (tokenA this)) (mint fromTokenAccount)
   && Token_equals (mint (tokenB this)) (mint toTokenAccount))
  || (Token_equals (mint (tokenB this)) (mint fromTokenAccount)
      && Token_equals (mint (tokenA this)) (mint toTokenAccount)).

Definition serialize (this : Pool) : SerializablePool :=
  {| s_address := toBase58 (address this);
     s_tokenA := TokenAccount_serialize (tokenA this);
     s_tokenB := TokenAccount_serialize (tokenB this);
     s_poolToken := Token_serialize (poolToken this);
     s_programId := toBase58 (programId this);
     s_nonce := nonce this;
     s_feeRatio := feeRatio this |}.

(** [Pool.from]: the arguments of the constructor are evaluated from left
    to right, and the first one that throws ends the call. *)
Definition Pool_from (serializablePool : SerializablePool) : result Pool :=
  address <- PublicKey_new (s_address serializablePool) ;;
  tokenA <- TokenAccount_from (s_tokenA serializablePool) ;;
  tokenB <- TokenAccount_from (s_tokenB serializablePool) ;;
  poolToken <- Token_from (s_poolToken serializablePool) ;;
  programId <- PublicKey_new (s_programId serializablePool) ;;
  Ok {| address := address;
        tokenA := tokenA;
        tokenB := tokenB;
        poolToken := poolToken;
        programId := programId;
        nonce := s_nonce serializablePool;
        feeRatio := s_feeRatio serializablePool |}.

End PoolModel.

Arguments Pool {H}.
Arguments SerializablePool {H}.

(** ** The pool of the integration test

    A token layer in which a key and a token are their base-58 text and a
    token account is its mint with its balance; [localPool] is the pool the
    integration test creates, with the given reserves and fee. *)

Record LocalAccount : Type := {
  l_mint : string;
  l_balance : number
}.

Definition localnet : TokenLayer := {|
  PublicKey := string;
  Token := string;
  TokenAccount := LocalAccount;
  SerializableToken := string;
  SerializableTokenAccount := LocalAccount;
  Token_equals := String.eqb;
  mint := l_mint;
  balance := l_balance;
  toBase58 := fun k => k;
  PublicKey_new := fun s => Ok s;
  Token_serialize := fun t => t;
  Token_from := fun s => Ok s;
  TokenAccount_serialize := fun a => a;
  TokenAccount_from := fun s => Ok s
|}.

Definition localPool (reserveA reserveB fee : Q) : @Pool localnet :=
  @Build_Pool localnet
    "pool"%string
    {| l_mint := "A"; l_balance := Fin reserveA |}
    {| l_mint := "B"; l_balance := Fin reserveB |}
    "P"%string
    "swap"%string
    (Fin 255)
    (Fin fee).

(** ** The computation in the words of the specification

    The eight steps of the specification's [swapOutput], over exact
    rationals; the division is undefined when its divisor is zero. *)

Module Spec.

Definition grossOutput (fromReserve toReserve inputAmount : Q) : Z :=
  let invariant := fromReserve * toReserve in
  let newFromReserve := fromReserve + inputAmount in
  let newToReserve := invariant / newFromReserve in
  Qceiling (toReserve - newToReserve).

Definition fee (grossOutput : Z) (feeRatio : Q) : Z :=
  Qfloor (inject_Z grossOutput * feeRatio).

Definition swapOutput (fromReserve toReserve feeRatio inputAmount : Q) : option Z :=
  if Qeq_bool (fromReserve + inputAmount) 0 then None
  else
    let grossOutput := grossOutput fromReserve toReserve inputAmount in
    let fee := fee grossOutput feeRatio in
    Some (grossOutput - fee)%Z.

End Spec.

(** ** The global slice of the store

    [src/features/GlobalSlice.tsx].  An action is read through the tests the
    slice applies to it: whether it is the fulfilled action of
    [getAvailableTokens] (the case of [addCase]), the three matchers of
    [utils/redux], its payload and the message of its error.  [notify] shows
    a message to the user; the messages shown are collected in order. *)

Class ActionLayer `{TokenLayer} : Type := {
  Action : Type;
  isGetAvailableTokensFulfilled : Action -> bool;
  isPendingAction : Action -> bool;
  isRejectedAction : Action -> bool;
  isFulfilledAction : Action -> bool;
  payload : Action -> list SerializableToken;
  error_message : Action -> string
}.

Section GlobalSlice.

Context `{ActionLayer}.

Record GlobalState : Type := {
  loading : number;
  error : option string;
  availableTokens : list SerializableToken
}.

Definition initialState : GlobalState :=
  {| loading := Fin 0; error := None; availableTokens := [] |}.

(** The four reducers of [extraReducers], in the order the builder
    receives them. *)
Definition onGetAvailableTokensFulfilled (state : GlobalState) (action : Action)
  : GlobalState :=
  {| loading := loading state;
     error := error state;
     availableTokens := payload action |}.

Definition onPending (state : GlobalState) : GlobalState :=
  {| loading := (loading state + Fin 1)%num;
     error := error state;
     availableTokens := availableTokens state |}.

Definition onRejected (state : GlobalState) (action : Action)
  : GlobalState * list string :=
  ({| loading := (loading state - Fin 1)%num;
      error := Some (error_message action);
      availableTokens := availableTokens state |},
   [error_message action]).

Definition onFulfilled (state : GlobalState) : GlobalState :=
  {| loading := (loading state - Fin 1)%num;
     error := error state;
     availableTokens := availableTokens state |}.

(** The reducer of the slice: the case reducer of the action's type runs
    first, then every matcher that accepts the action, in the order of
    their registration, each on the state the previous one returned. *)
Definition reducer (state : GlobalState) (action : Action)
  : GlobalState * list string :=
  let s1 :=
    if isGetAvailableTokensFulfilled action
    then onGetAvailableTokensFulfilled state action else state in
  let s2 := if isPendingAction action then onPending s1 else s1 in
  let '(s3, notified) :=
    if isRejectedAction action then onRejected s2 action else (s2, []) in
  let s4 := if isFulfilledAction action then onFulfilled s3 else s3 in
  (s4, notified).

(** The store after a sequence of actions, with the messages shown. *)
Fixpoint dispatchAll (state : GlobalState) (actions : list Action)
  : GlobalState * list string :=
  match actions with
  | [] => (state, [])
  | action :: rest =>
      let '(s1, shown1) := reducer state action in
      let '(s2, shown2) := dispatchAll s1 rest in
      (s2, shown1 ++ shown2)
  end.

(** How many actions of a sequence a test accepts. *)
Definition accepted (test : Action -> bool) (actions : list Action) : Z :=
  Z.of_nat (List.length (filter test actions)).

(** The message of the last rejected action of a sequence, and the payload
    of its last fulfilled [getAvailableTokens]. *)
Fixpoint lastRejected (actions : list Action) : option string :=
  match actions with
  | [] => None
  | action :: rest =>
      match lastRejected rest with
      | Some message => Some message
      | None => if isRejectedAction action then Some (error_message action) else None
      end
  end.

Fixpoint lastTokens (actions : list Action) : option (list SerializableToken) :=
  match actions with
  | [] => None
  | action :: rest =>
      match lastTokens rest with
      | Some tokens => Some tokens
      | None =>
          if isGetAvailableTokensFulfilled action then Some (payload action) else None
      end
  end.

End GlobalSlice.

Arguments GlobalState {H}.

(** The actions of a store with one thunk besides [getAvailableTokens]. *)
Inductive LocalAction : Type :=
| Pending
| Rejected (message : string)
| TokensFulfilled (tokens : list string)
| Fulfilled
| Unrelated.

Definition localActions : @ActionLayer localnet :=
  @Build_ActionLayer localnet
    LocalAction
    (fun a => match a with TokensFulfilled _ => true | _ => false end)
    (fun a => match a with Pending => true | _ => false end)
    (fun a => match a with Rejected _ => true | _ => false end)
    (fun a => match a with TokensFulfilled _ | Fulfilled => true | _ => false end)
    (fun a => match a with TokensFulfilled tokens => tokens | _ => [] end)
    (fun a => match a with Rejected m => m | _ => EmptyString end).

(** * Rounding

    What the proofs below need of the rounding: it respects the equality
    of rationals, it is monotone, it leaves the integers up to 2^53 as they
    are, and in the normal range it moves a value by at most the fraction
    2^-53 of it. *)

(** ** Rounding to the nearest integer *)

Lemma floor_spec (x : Q) : inject_Z (Qfloor x) <= x /\ x < inject_Z (Qfloor x) + 1.
Proof.
  split; [apply Qfloor_le|].
  pose proof (Qlt_floor x) as Hlt.
  rewrite inject_Z_plus in Hlt. exact Hlt.
Qed.

Lemma rne_comp (x y : Q) : x == y -> rne x = rne y.
Proof.
  intros E. unfold rne. rewrite (Qfloor_comp _ _ E).
  assert (E' : x - inject_Z (Qfloor y) == y - inject_Z (Qfloor y)) by (rewrite E; reflexivity).
  rewrite (Qcompare_comp _ _ E' (1#2) (1#2) (Qeq_refl _)). reflexivity.
Qed.

Lemma rne_Z (z : Z) : rne (inject_Z z) = z.
Proof.
  unfold rne. rewrite Qfloor_Z.
  assert (E : Qcompare (inject_Z z - inject_Z z) (1 # 2) = Lt).
  { apply (proj1 (Qlt_alt _ _)). lra. }
  rewrite E. reflexivity.
Qed.

Lemma rne_cases (x : Q) :
  (rne x = Qfloor x /\ x - inject_Z (Qfloor x) <= 1 # 2)
  \/ (rne x = (Qfloor x + 1)%Z /\ 1 # 2 <= x - inject_Z (Qfloor x)).
Proof.
  unfold rne.
  destruct (Qcompare_spec (x - inject_Z (Qfloor x)) (1 # 2)) as [E|E|E].
  - destruct (Z.even (Qfloor x)); [left | right]; split; try reflexivity; lra.
  - left. split; [reflexivity | lra].
  - right. split; [reflexivity | lra].
Qed.

Lemma rne_bounds (x : Q) :
  inject_Z (rne x) - (1 # 2) <= x /\ x <= inject_Z (rne x) + (1 # 2).
Proof.
  destruct (floor_spec x) as [Hlo Hhi].
  destruct (rne_cases x) as [[E H]|[E H]]; rewrite E.
  - split; lra.
  - rewrite inject_Z_plus. change (inject_Z 1) with 1. split; lra.
Qed.

Lemma rne_mono (x y : Q) : x <= y -> (rne x <= rne y)%Z.
Proof.
  intros Hle.
  pose proof (Qfloor_resp_le _ _ Hle) as Hf.
  destruct (floor_spec x) as [Hxlo Hxhi].
  destruct (floor_spec y) as [Hylo Hyhi].
  destruct (Z.eq_dec (Qfloor x) (Qfloor y)) as [E|NE].
  - unfold rne. rewrite E.
    destruct (Qcompare_spec (x - inject_Z (Qfloor y)) (1 # 2)) as [Ex|Ex|Ex];
    destruct (Qcompare_spec (y - inject_Z (Qfloor y)) (1 # 2)) as [Ey|Ey|Ey];
      try (destruct (Z.even (Qfloor y))); try lia; exfalso; lra.
  - assert (Hlt : (Qfloor x + 1 <= Qfloor y)%Z) by lia.
    destruct (rne_cases x) as [[Ex _]|[Ex _]];
    destruct (rne_cases y) as [[Ey _]|[Ey _]]; lia.
Qed.

Lemma rne_le_Z (x : Q) (z : Z) : x <= inject_Z z -> (rne x <= z)%Z.
Proof. intros H. rewrite <- (rne_Z z). apply rne_mono. exact H. Qed.

Lemma Z_le_rne (x : Q) (z : Z) : inject_Z z <= x -> (z <= rne x)%Z.
Proof. intros H. rewrite <- (rne_Z z). apply rne_mono. exact H. Qed.

(** Powers of two. *)

Lemma pow2_pos (k : Z) : 0 < 2 ^ k.
Proof. apply Qpower_0_lt. reflexivity. Qed.

Lemma pow2_add (a b : Z) : 2 ^ (a + b) == 2 ^ a * 2 ^ b.
Proof. apply Qpower_plus. discriminate. Qed.

Lemma pow2_le (a b : Z) : (a <= b)%Z -> 2 ^ a <= 2 ^ b.
Proof. intros H. apply Qpower_le_compat_l; [exact H | discriminate]. Qed.

Lemma pow2_lt (a b : Z) : (a < b)%Z -> 2 ^ a < 2 ^ b.
Proof. intros H. apply Qpower_lt_compat_l; [exact H | reflexivity]. Qed.

Lemma pow2_Z (k : Z) : (0 <= k)%Z -> 2 ^ k == inject_Z (2 ^ k).
Proof. intros H. rewrite Zpower_Qpower by exact H. reflexivity. Qed.

Lemma pow2_succ (k : Z) : 2 ^ (k + 1) == 2 * 2 ^ k.
Proof. rewrite pow2_add. change (2 ^ 1) with 2. ring. Qed.

Lemma expo_comp (x y : Q) : x == y -> expo x = expo y.
Proof.
  intros E. unfold expo.
  rewrite (Qleb_comp 1 1 (Qeq_refl 1) _ _ E).
  rewrite (Qfloor_comp _ _ E).
  assert (E' : / x == / y) by (rewrite E; reflexivity).
  rewrite (Qceiling_comp _ _ E'). reflexivity.
Qed.

Lemma expo_spec (q : Q) : 0 < q -> 2 ^ expo q <= q /\ q < 2 ^ (expo q + 1).
Proof.
  intros Hq. unfold expo.
  destruct (Qle_bool 1 q) eqn:E.
  - apply Qle_bool_iff in E.
    destruct (floor_spec q) as [Hlo Hhi].
    assert (Hn : (1 <= Qfloor q)%Z).
    { change 1%Z with (Qfloor 1). apply Qfloor_resp_le. exact E. }
    destruct (Z.log2_spec (Qfloor q)) as [L1 L2]; [lia|].
    pose proof (Z.log2_nonneg (Qfloor q)) as Lnn.
    split.
    + rewrite pow2_Z by exact Lnn.
      apply Qle_trans with (inject_Z (Qfloor q)); [|exact Hlo].
      rewrite <- Zle_Qle. exact L1.
    + rewrite pow2_Z by lia.
      apply Qlt_le_trans with (inject_Z (Qfloor q) + 1); [exact Hhi|].
      change 1 with (inject_Z 1) at 1. rewrite <- inject_Z_plus, <- Zle_Qle.
      unfold Z.succ in L2. lia.
  - assert (Hlt : q < 1).
    { destruct (Qlt_le_dec q 1) as [H|H]; [exact H|].
      apply Qle_bool_iff in H. rewrite H in E. discriminate E. }
    clear E.
    assert (Hinv : 1 < / q).
    { apply Qlt_shift_inv_l; [exact Hq | lra]. }
    assert (Hq' : q * / q == 1) by (field; lra).
    remember (/ q) as i eqn:Hi. clear Hi.
    set (c := Qceiling i).
    pose proof (Qle_ceiling i) as Hc1. fold c in Hc1.
    pose proof (Qceiling_lt i) as Hc2. fold c in Hc2.
    assert (Hc : (2 <= c)%Z).
    { assert (H1 : inject_Z 1 < inject_Z c) by (change (inject_Z 1) with 1; lra).
      rewrite <- Zlt_Qlt in H1. lia. }
    destruct (Z.log2_up_spec c) as [L1 L2]; [lia|].
    assert (Lpos : (1 <= Z.log2_up c)%Z).
    { pose proof (Z.log2_up_pos c). lia. }
    set (L := Z.log2_up c) in *.
    split.
    + rewrite Qpower_opp, pow2_Z by lia.
      assert (HL : i <= inject_Z (2 ^ L)).
      { apply Qle_trans with (inject_Z c); [exact Hc1|]. rewrite <- Zle_Qle. exact L2. }
      remember (inject_Z (2 ^ L)) as P eqn:HP. clear HP.
      assert (HLpos : 0 < P) by lra.
      apply Qle_shift_inv_r; [exact HLpos|].
      nra.
    + replace (- L + 1)%Z with (- (L - 1))%Z by lia.
      rewrite Qpower_opp, pow2_Z by lia.
      assert (HL : inject_Z (2 ^ (L - 1)) < i).
      { apply Qle_lt_trans with (inject_Z (c - 1)); [|exact Hc2].
        rewrite <- Zle_Qle. rewrite <- Z.sub_1_r in L1. lia. }
      assert (HLpos : 0 < inject_Z (2 ^ (L - 1))).
      { change 0 with (inject_Z 0). rewrite <- Zlt_Qlt. apply Z.pow_pos_nonneg; lia. }
      remember (inject_Z (2 ^ (L - 1))) as P eqn:HP. clear HP.
      apply Qlt_shift_inv_l; [exact HLpos|].
      nra.
Qed.

Lemma expo_unique (q : Q) (e : Z) : 2 ^ e <= q -> q < 2 ^ (e + 1) -> expo q = e.
Proof.
  intros Hlo Hhi.
  assert (Hq : 0 < q) by (pose proof (pow2_pos e); lra).
  destruct (expo_spec q Hq) as [Elo Ehi].
  destruct (Z.lt_trichotomy (expo q) e) as [H|[H|H]]; [|exact H|].
  - exfalso. assert (Hp : 2 ^ (expo q + 1) <= 2 ^ e) by (apply pow2_le; lia). lra.
  - exfalso. assert (Hp : 2 ^ (e + 1) <= 2 ^ expo q) by (apply pow2_le; lia). lra.
Qed.

Lemma expo_mono (x y : Q) : 0 < x -> x <= y -> (expo x <= expo y)%Z.
Proof.
  intros Hx Hle.
  destruct (expo_spec x Hx) as [Xlo Xhi].
  destruct (expo_spec y) as [Ylo Yhi]; [lra|].
  destruct (Z.le_gt_cases (expo x) (expo y)) as [H|H]; [exact H|].
  exfalso. assert (Hp : 2 ^ (expo y + 1) <= 2 ^ expo x) by (apply pow2_le; lia). lra.
Qed.

(** ** Rounding to binary64 *)

Lemma kexp_comp (x y : Q) : x == y -> kexp x = kexp y.
Proof. intros E. unfold kexp. rewrite (expo_comp _ _ E). reflexivity. Qed.

Lemma mant_comp (x y : Q) : x == y -> mant x = mant y.
Proof.
  intros E. unfold mant. rewrite (kexp_comp _ _ E).
  apply rne_comp. rewrite E. reflexivity.
Qed.

Lemma val_comp (x y : Q) : x == y -> val x = val y.
Proof. intros E. unfold val. rewrite (mant_comp _ _ E), (kexp_comp _ _ E). reflexivity. Qed.

Lemma round_pos_comp (x y : Q) : x == y -> round_pos x = round_pos y.
Proof. intros E. unfold round_pos. rewrite (val_comp _ _ E). reflexivity. Qed.

Lemma round64_comp (x y : Q) : x == y -> round64 x = round64 y.
Proof.
  intros E. unfold round64.
  rewrite (Qcompare_comp _ _ E 0 0 (Qeq_refl 0)).
  rewrite (round_pos_comp _ _ E).
  assert (E' : - x == - y) by (rewrite E; reflexivity).
  rewrite (round_pos_comp _ _ E'). reflexivity.
Qed.

Lemma round64_zero (q : Q) : q == 0 -> round64 q = Fin 0.
Proof. intros E. unfold round64. rewrite (proj1 (Qeq_alt q 0) E). reflexivity. Qed.

Lemma round64_pos (q : Q) : 0 < q -> round64 q = round_pos q.
Proof. intros H. unfold round64. rewrite (proj1 (Qgt_alt q 0) H). reflexivity. Qed.

Lemma round64_neg (q : Q) : q < 0 -> round64 q = neg (round_pos (- q)).
Proof. intros H. unfold round64. rewrite (proj1 (Qlt_alt q 0) H). reflexivity. Qed.

(** A rational counted in units of the last place, and back. *)

Lemma scaled_le (x y : Q) (k : Z) : x <= y -> x / 2 ^ k <= y / 2 ^ k.
Proof.
  intros H. pose proof (pow2_pos k) as Hp.
  apply Qmult_le_compat_r; [exact H|].
  apply Qlt_le_weak, Qinv_lt_0_compat, Hp.
Qed.

Lemma scaled_mul (x : Q) (k : Z) : x / 2 ^ k * 2 ^ k == x.
Proof. pose proof (pow2_pos k) as Hp. field. lra. Qed.

Lemma val_nonneg (q : Q) : 0 <= q -> 0 <= val q.
Proof.
  intros Hq. unfold val, mant.
  pose proof (pow2_pos (kexp q)) as Hp.
  assert (H0 : (0 <= rne (q / 2 ^ kexp q))%Z).
  { apply Z_le_rne. change (inject_Z 0) with 0.
    apply Qle_shift_div_l; [exact Hp | lra]. }
  rewrite Zle_Qle in H0. change (inject_Z 0) with 0 in H0.
  apply Qmult_le_0_compat; lra.
Qed.

Lemma val_err (q : Q) :
  val q - 2 ^ kexp q * (1 # 2) <= q /\ q <= val q + 2 ^ kexp q * (1 # 2).
Proof.
  unfold val, mant.
  pose proof (pow2_pos (kexp q)) as Hp.
  pose proof (scaled_mul q (kexp q)) as Hs.
  destruct (rne_bounds (q / 2 ^ kexp q)) as [Hlo Hhi].
  set (m := inject_Z (rne (q / 2 ^ kexp q))) in *.
  set (s := q / 2 ^ kexp q) in *.
  set (p := 2 ^ kexp q) in *.
  split; nra.
Qed.

Lemma kexp_mono (x y : Q) : 0 < x -> x <= y -> (kexp x <= kexp y)%Z.
Proof. intros Hx Hle. unfold kexp. pose proof (expo_mono x y Hx Hle). lia. Qed.

Lemma val_mono (x y : Q) : 0 < x -> x <= y -> val x <= val y.
Proof.
  intros Hx Hle.
  assert (Hy : 0 < y) by lra.
  pose proof (kexp_mono x y Hx Hle) as Hk.
  destruct (Z.eq_dec (kexp x) (kexp y)) as [E|NE].
  - unfold val, mant. rewrite E.
    pose proof (pow2_pos (kexp y)) as Hp.
    pose proof (rne_mono _ _ (scaled_le x y (kexp y) Hle)) as Hm.
    rewrite Zle_Qle in Hm.
    apply Qmult_le_compat_r; [exact Hm | lra].
  - assert (Hlt : (kexp x < kexp y)%Z) by lia.
    destruct (expo_spec x Hx) as [Xlo Xhi].
    destruct (expo_spec y Hy) as [Ylo Yhi].
    assert (Eky : kexp y = (expo y - 52)%Z) by (unfold kexp in *; lia).
    assert (Hex : (expo x + 1 <= expo y)%Z) by (unfold kexp in *; lia).
    apply Qle_trans with (2 ^ expo y).
    + (* val x <= 2 ^ expo y *)
      unfold val, mant.
      set (kx := kexp x) in *.
      pose proof (pow2_pos kx) as Hp.
      assert (Hj : (0 <= expo y - kx)%Z) by lia.
      assert (Hpow : 2 ^ expo y == inject_Z (2 ^ (expo y - kx)) * 2 ^ kx).
      { rewrite <- pow2_Z by exact Hj. rewrite <- pow2_add. f_equiv. lia. }
      assert (Hxs : x / 2 ^ kx <= inject_Z (2 ^ (expo y - kx))).
      { apply Qle_shift_div_r; [exact Hp|]. rewrite <- Hpow.
        pose proof (pow2_le (expo x + 1) (expo y) Hex). lra. }
      pose proof (rne_le_Z _ _ Hxs) as Hm. rewrite Zle_Qle in Hm.
      rewrite Hpow. apply Qmult_le_compat_r; [exact Hm | lra].
    + (* 2 ^ expo y <= val y *)
      unfold val, mant. rewrite Eky.
      set (ky := (expo y - 52)%Z) in *.
      pose proof (pow2_pos ky) as Hp.
      assert (Hpow : 2 ^ expo y == inject_Z (2 ^ 52) * 2 ^ ky).
      { rewrite <- pow2_Z by lia. rewrite <- pow2_add. f_equiv. unfold ky. lia. }
      assert (Hys : inject_Z (2 ^ 52) <= y / 2 ^ ky).
      { apply Qle_shift_div_l; [exact Hp|]. rewrite <- Hpow. exact Ylo. }
      pose proof (Z_le_rne _ _ Hys) as Hm. rewrite Zle_Qle in Hm.
      rewrite Hpow. apply Qmult_le_compat_r; [exact Hm | lra].
Qed.

Lemma round_pos_cases (q : Q) :
  (round_pos q = PosInf /\ 2 ^ 1024 <= val q)
  \/ (round_pos q = Fin (Qred (val q)) /\ val q < 2 ^ 1024).
Proof.
  unfold round_pos.
  destruct (Qle_bool (2 ^ 1024) (val q)) eqn:E.
  - left. split; [reflexivity|]. apply Qle_bool_iff. exact E.
  - right. split; [reflexivity|].
    destruct (Qlt_le_dec (val q) (2 ^ 1024)) as [H|H]; [exact H|].
    apply Qle_bool_iff in H. rewrite H in E. discriminate E.
Qed.

Lemma round_pos_mono (x y : Q) :
  0 < x -> x <= y -> number_le (round_pos x) (round_pos y).
Proof.
  intros Hx Hle. pose proof (val_mono x y Hx Hle) as Hv.
  destruct (round_pos_cases x) as [[Ex Hx']|[Ex Hx']];
  destruct (round_pos_cases y) as [[Ey Hy']|[Ey Hy']];
    rewrite Ex, Ey; unfold number_le.
  - exact I.
  - lra.
  - exact I.
  - apply Qred_le. exact Hv.
Qed.

Lemma round_pos_nonneg (q : Q) : 0 <= q -> number_le (Fin 0) (round_pos q).
Proof.
  intros Hq. pose proof (val_nonneg q Hq) as Hv.
  destruct (round_pos_cases q) as [[E _]|[E _]]; rewrite E; unfold number_le.
  - exact I.
  - rewrite Qred_correct. exact Hv.
Qed.

Lemma number_le_neg (x y : number) : number_le x y -> number_le (neg y) (neg x).
Proof.
  destruct x, y; cbn; try tauto. intros H. lra.
Qed.

Lemma number_le_trans (x y z : number) : number_le x y -> number_le y z -> number_le x z.
Proof.
  destruct x, y, z; cbn; try tauto. intros H1 H2. lra.
Qed.

Lemma round64_mono (x y : Q) : x <= y -> number_le (round64 x) (round64 y).
Proof.
  intros Hle.
  destruct (Qcompare_spec x 0) as [Ex|Ex|Ex];
  destruct (Qcompare_spec y 0) as [Ey|Ey|Ey]; try (exfalso; lra).
  - rewrite (round64_zero x Ex), (round64_zero y Ey). cbn. lra.
  - rewrite (round64_zero x Ex), (round64_pos y Ey).
    apply round_pos_nonneg. lra.
  - rewrite (round64_neg x Ex), (round64_zero y Ey).
    change (Fin 0) with (neg (Fin 0)).
    apply number_le_neg, round_pos_nonneg. lra.
  - rewrite (round64_neg x Ex), (round64_neg y Ey).
    apply number_le_neg, round_pos_mono; lra.
  - rewrite (round64_neg x Ex), (round64_pos y Ey).
    apply number_le_trans with (Fin 0).
    + change (Fin 0) with (neg (Fin 0)).
      apply number_le_neg, round_pos_nonneg. lra.
    + apply round_pos_nonneg. lra.
  - rewrite (round64_pos x Ex), (round64_pos y Ey).
    apply round_pos_mono; assumption.
Qed.

Lemma Qopp_opp (a : Q) : - - a = a.
Proof. destruct a as [n d]. unfold Qopp; cbn. rewrite Z.opp_involutive. reflexivity. Qed.

Lemma neg_neg (x : number) : neg (neg x) = x.
Proof. destruct x; cbn; try reflexivity. rewrite Qopp_opp. reflexivity. Qed.

Lemma round64_opp (q : Q) : round64 (- q) = neg (round64 q).
Proof.
  destruct (Qcompare_spec q 0) as [E|E|E].
  - rewrite (round64_zero q E), round64_zero by (rewrite E; reflexivity).
    reflexivity.
  - rewrite (round64_neg q E), neg_neg. apply round64_pos. lra.
  - rewrite (round64_pos q E), round64_neg by lra.
    f_equal. apply round_pos_comp. ring.
Qed.

Lemma Qred_inject_Z (z : Z) : Qred (inject_Z z) = inject_Z z.
Proof. apply Qred_identity. cbn. apply Z.gcd_1_r. Qed.

(** A value that sits on the grid of its own binade is its own rounding. *)

Lemma val_exact (q : Q) (m : Z) : q == inject_Z m * 2 ^ kexp q -> val q == q.
Proof.
  intros E. unfold val, mant.
  pose proof (pow2_pos (kexp q)) as Hp.
  assert (Es : q / 2 ^ kexp q == inject_Z m).
  { rewrite E at 1. field. lra. }
  rewrite (rne_comp _ _ Es), rne_Z. symmetry. exact E.
Qed.

Lemma round_pos_exact (q : Q) (m : Z) :
  q == inject_Z m * 2 ^ kexp q -> q < 2 ^ 1024 -> round_pos q = Fin (Qred q).
Proof.
  intros E Hlt. pose proof (val_exact q m E) as Hv.
  destruct (round_pos_cases q) as [[_ H]|[Er _]].
  - exfalso. lra.
  - rewrite Er. f_equal. apply Qred_complete. exact Hv.
Qed.

Lemma pow2_53_lt : 2 ^ 53 < 2 ^ 1024.
Proof. apply pow2_lt. lia. Qed.

Lemma expo_Z_range (z : Z) :
  (1 <= z <= 2 ^ 53)%Z -> (0 <= expo (inject_Z z) <= 53)%Z.
Proof.
  intros [Hlo Hhi].
  assert (Hq : 0 < inject_Z z) by (change 0 with (inject_Z 0); rewrite <- Zlt_Qlt; lia).
  destruct (expo_spec _ Hq) as [Elo Ehi].
  assert (H1 : 1 <= inject_Z z) by (change 1 with (inject_Z 1); rewrite <- Zle_Qle; lia).
  assert (H53 : inject_Z z <= 2 ^ 53).
  { rewrite (pow2_Z 53) by lia. rewrite <- Zle_Qle. exact Hhi. }
  split.
  - destruct (Z.le_gt_cases 0 (expo (inject_Z z))) as [H|H]; [exact H|].
    exfalso. assert (Hp : 2 ^ (expo (inject_Z z) + 1) <= 2 ^ 0) by (apply pow2_le; lia).
    change (2 ^ 0) with 1 in Hp. lra.
  - destruct (Z.le_gt_cases (expo (inject_Z z)) 53) as [H|H]; [exact H|].
    exfalso. assert (Hp : 2 ^ 54 <= 2 ^ expo (inject_Z z)) by (apply pow2_le; lia).
    assert (Hs : 2 ^ 53 < 2 ^ 54) by (apply pow2_lt; lia). lra.
Qed.

Lemma round64_Z_pos (z : Z) :
  (1 <= z <= 2 ^ 53)%Z -> round64 (inject_Z z) = Fin (inject_Z z).
Proof.
  intros Hz.
  assert (Hq : 0 < inject_Z z) by (change 0 with (inject_Z 0); rewrite <- Zlt_Qlt; lia).
  rewrite (round64_pos _ Hq).
  pose proof (expo_Z_range z Hz) as He.
  destruct (expo_spec _ Hq) as [Elo Ehi].
  assert (Hk : kexp (inject_Z z) = (expo (inject_Z z) - 52)%Z) by (unfold kexp; lia).
  assert (Hlt : inject_Z z < 2 ^ 1024).
  { apply Qle_lt_trans with (2 ^ 53); [|exact pow2_53_lt].
    rewrite (pow2_Z 53) by lia. rewrite <- Zle_Qle. lia. }
  rewrite <- (Qred_inject_Z z) at 2.
  destruct (Z.le_gt_cases (expo (inject_Z z)) 52) as [H|H].
  - apply round_pos_exact with (m := (z * 2 ^ (52 - expo (inject_Z z)))%Z);
      [|exact Hlt].
    rewrite Hk, inject_Z_mult, <- pow2_Z by lia.
    rewrite <- Qmult_assoc, <- pow2_add.
    replace (52 - expo (inject_Z z) + (expo (inject_Z z) - 52))%Z with 0%Z by lia.
    change (2 ^ 0) with 1. ring.
  - assert (E53 : expo (inject_Z z) = 53%Z) by lia.
    assert (Ez : z = (2 ^ 53)%Z).
    { rewrite E53 in Elo. rewrite (pow2_Z 53) in Elo by lia.
      rewrite <- Zle_Qle in Elo. lia. }
    apply round_pos_exact with (m := (2 ^ 52)%Z); [|exact Hlt].
    rewrite Hk, E53, Ez. reflexivity.
Qed.

Lemma round64_Z (z : Z) :
  (Z.abs z <= 2 ^ 53)%Z -> round64 (inject_Z z) = Fin (inject_Z z).
Proof.
  intros Hz.
  destruct (Z.lt_trichotomy z 0) as [H|[H|H]].
  - assert (E : inject_Z z == - inject_Z (- z)) by (rewrite inject_Z_opp; ring).
    rewrite (round64_comp _ _ E), round64_opp, round64_Z_pos by lia.
    cbn [neg]. f_equal. rewrite inject_Z_opp. apply Qopp_opp.
  - subst z. reflexivity.
  - apply round64_Z_pos. lia.
Qed.

(** The relative error of a rounding in the normal range. *)

Lemma round64_error (q : Q) :
  0 < q -> (-1022 <= expo q)%Z -> q <= 2 ^ 1023 ->
  exists q' : Q,
    round64 q = Fin q'
    /\ q - q * 2 ^ (-53) <= q' /\ q' <= q + q * 2 ^ (-53).
Proof.
  intros Hq He Hmax.
  rewrite (round64_pos _ Hq).
  destruct (expo_spec _ Hq) as [Elo Ehi].
  assert (Hk : kexp q = (expo q - 52)%Z) by (unfold kexp; lia).
  destruct (val_err q) as [Vlo Vhi]. rewrite Hk in Vlo, Vhi.
  assert (Hhalf : 2 ^ (expo q - 52) * (1 # 2) == 2 ^ expo q * 2 ^ (-53)).
  { replace (expo q - 52)%Z with (expo q + (-53) + 1)%Z by lia.
    rewrite pow2_succ, pow2_add. ring. }
  pose proof (pow2_pos (-53)) as Hp53.
  assert (Hsmall : 2 ^ (-53) <= 1 # 2).
  { apply Qle_trans with (2 ^ (-1)); [apply pow2_le; lia|].
    unfold Qle; cbn; lia. }
  assert (Hstep : 2 ^ expo q * 2 ^ (-53) <= q * 2 ^ (-53)).
  { apply Qmult_le_compat_r; lra. }
  assert (Hv : val q < 2 ^ 1024).
  { assert (H1024 : 2 ^ 1024 == 2 * 2 ^ 1023) by (rewrite <- pow2_succ; reflexivity).
    set (p := 2 ^ (-53)) in *. set (P := 2 ^ 1023) in *.
    assert (Hqp : q * p <= q * (1 # 2)) by (apply Qmult_le_l; [exact Hq | exact Hsmall]).
    lra. }
  destruct (round_pos_cases q) as [[_ H]|[Er _]]; [exfalso; lra|].
  exists (Qred (val q)). split; [exact Er|].
  rewrite Qred_correct. split; lra.
Qed.

Lemma round64_not_NaN (q : Q) : round64 q <> NaN.
Proof.
  unfold round64, round_pos.
  destruct (Qcompare q 0); try discriminate.
  - destruct (Qle_bool (2 ^ 1024) (val (- q))); discriminate.
  - destruct (Qle_bool (2 ^ 1024) (val q)); discriminate.
Qed.

(** ** The gross amount on small integers *)

Lemma Qceiling_unique (x : Q) (z : Z) :
  inject_Z (z - 1) < x -> x <= inject_Z z -> Qceiling x = z.
Proof.
  intros Hlo Hhi.
  pose proof (Qle_ceiling x) as H1. pose proof (Qceiling_lt x) as H2.
  assert (A : inject_Z (z - 1) < inject_Z (Qceiling x)) by lra.
  assert (B : inject_Z (Qceiling x - 1) < inject_Z z) by lra.
  rewrite <- Zlt_Qlt in A, B. lia.
Qed.

Lemma expo_ge (q : Q) (e : Z) : 2 ^ e <= q -> (e <= expo q)%Z.
Proof.
  intros H. assert (Hq : 0 < q) by (pose proof (pow2_pos e); lra).
  destruct (expo_spec q Hq) as [_ Ehi].
  destruct (Z.le_gt_cases e (expo q)) as [L|L]; [exact L|].
  exfalso. assert (Hp : 2 ^ (expo q + 1) <= 2 ^ e) by (apply pow2_le; lia). lra.
Qed.

Lemma inject_Z_pos (z : Z) : (0 < z)%Z -> 0 < inject_Z z.
Proof. intros H. change 0 with (inject_Z 0). rewrite <- Zlt_Qlt. exact H. Qed.

Lemma inject_Z_sub (x y : Z) : inject_Z x - inject_Z y = inject_Z (x - y).
Proof.
  unfold Qminus, Qplus, Qopp, inject_Z; simpl.
  f_equal; lia.
Qed.

Lemma quarter_pow : 2 ^ 51 * 2 ^ (-53) == 1 # 4.
Proof. rewrite <- pow2_add. reflexivity. Qed.

(** Scaling an inequality by a positive factor, both ways. *)

Lemma scale_lt (x y c : Q) : 0 < c -> x * c < y * c -> x < y.
Proof. intros Hc H. apply (Qmult_lt_r _ _ c Hc). exact H. Qed.

Lemma scale_le (x y c : Q) : 0 < c -> x * c <= y * c -> x <= y.
Proof. intros Hc H. apply (Qmult_le_r _ _ c Hc). exact H. Qed.

(** On integers small enough, the gross amount the function computes is
    the exact one: the product and the sum are exact, and the two roundings
    of the quotient and of the difference move the difference by less than
    its distance to the integers around it. *)
Lemma gross_exact_pos (a b d : Z) (f : number) :
  (0 <= a)%Z -> (1 <= b)%Z -> (0 <= d)%Z -> (0 < a + d)%Z ->
  ((a + d) * b <= 2 ^ 51)%Z ->
  grossToAmount (swapSteps (Fin (inject_Z a)) (Fin (inject_Z b)) f (Fin (inject_Z d)))
  = Fin (inject_Z (Spec.grossOutput (inject_Z a) (inject_Z b) (inject_Z d))).
Proof.
  intros Ha Hb Hd Hpos Hsize. unfold swapSteps. cbn [grossToAmount].
  change (Spec.grossOutput (inject_Z a) (inject_Z b) (inject_Z d))
    with (Qceiling (inject_Z b - inject_Z a * inject_Z b / (inject_Z a + inject_Z d))).
  assert (HD51 : (a + d <= 2 ^ 51)%Z) by nia.
  assert (Hb51 : (b <= 2 ^ 51)%Z) by nia.
  assert (Hab : (0 <= a * b <= 2 ^ 51)%Z) by nia.
  (* the product and the sum are exact *)
  assert (Emul : mul (Fin (inject_Z a)) (Fin (inject_Z b)) = Fin (inject_Z (a * b))).
  { cbn [mul]. rewrite <- inject_Z_mult. apply round64_Z. lia. }
  assert (Eadd : add (Fin (inject_Z a)) (Fin (inject_Z d)) = Fin (inject_Z (a + d))).
  { cbn [add]. rewrite <- inject_Z_plus. apply round64_Z. lia. }
  rewrite Emul, Eadd. cbn [div].
  assert (HDq : 0 < inject_Z (a + d)) by (apply inject_Z_pos; exact Hpos).
  assert (ED : Qeq_bool (inject_Z (a + d)) 0 = false).
  { destruct (Qeq_bool (inject_Z (a + d)) 0) eqn:E; [|reflexivity].
    apply Qeq_bool_eq in E. exfalso; lra. }
  rewrite ED.
  assert (Hgo : Qceiling (inject_Z b - inject_Z a * inject_Z b / (inject_Z a + inject_Z d))
                = Qceiling (inject_Z b - inject_Z (a * b) / inject_Z (a + d))).
  { apply Qceiling_comp.
    rewrite inject_Z_mult, inject_Z_plus. reflexivity. }
  rewrite Hgo. clear Hgo Emul Eadd ED.
  assert (HB51 : inject_Z b * inject_Z (a + d) <= 2 ^ 51).
  { rewrite <- inject_Z_mult, (pow2_Z 51) by lia. rewrite <- Zle_Qle. lia. }
  assert (HD51q : inject_Z (a + d) <= 2 ^ 51).
  { rewrite (pow2_Z 51) by lia. rewrite <- Zle_Qle. exact HD51. }
  assert (Hb51q : inject_Z b <= 2 ^ 51).
  { rewrite (pow2_Z 51) by lia. rewrite <- Zle_Qle. exact Hb51. }
  assert (HB1 : 1 <= inject_Z b)
    by (change 1 with (inject_Z 1); rewrite <- Zle_Qle; exact Hb).
  assert (HqD : inject_Z (a * b) / inject_Z (a + d) * inject_Z (a + d)
                == inject_Z (a * b)) by (field; lra).
  assert (Hab0 : 0 <= inject_Z (a * b))
    by (change 0 with (inject_Z 0); rewrite <- Zle_Qle; lia).
  assert (HabB : inject_Z (a * b) <= inject_Z b * inject_Z (a + d)).
  { rewrite <- inject_Z_mult, <- Zle_Qle. nia. }
  set (B := inject_Z b) in *. set (Dn := inject_Z (a + d)) in *.
  set (q := inject_Z (a * b) / Dn) in *.
  assert (Hq0 : 0 <= q) by (apply (scale_le _ _ Dn HDq); lra).
  assert (HqB : q <= B) by (apply (scale_le _ _ Dn HDq); lra).
  set (g := Qceiling (B - q)).
  pose proof (Qle_ceiling (B - q)) as Hg1. fold g in Hg1.
  pose proof (Qceiling_lt (B - q)) as Hg2. fold g in Hg2.
  assert (Hgb : (0 <= g <= b)%Z).
  { split.
    - assert (H : inject_Z (g - 1) < inject_Z b) by (fold B; lra).
      assert (H' : inject_Z (0 - 1) < inject_Z g).
      { apply Qlt_le_trans with (B - q); [|exact Hg1].
        change (inject_Z (0 - 1)) with (- (1)). lra. }
      rewrite <- Zlt_Qlt in H'. lia.
    - assert (H : inject_Z (g - 1) < inject_Z b) by (fold B; lra).
      rewrite <- Zlt_Qlt in H. lia. }
  destruct (Qeq_dec (B - q) (inject_Z g)) as [Eint|NE].
  - (* the exact difference is an integer: every step is exact *)
    assert (Eq : q == inject_Z (b - g)).
    { rewrite <- inject_Z_sub. fold B. lra. }
    rewrite (round64_comp _ _ Eq), round64_Z by lia.
    cbn [sub neg add].
    assert (Ey : B + - inject_Z (b - g) == inject_Z g).
    { rewrite <- inject_Z_sub. fold B. ring. }
    rewrite (round64_comp _ _ Ey), round64_Z by lia.
    cbn [Math_ceil]. rewrite Qceiling_Z. reflexivity.
  - (* otherwise it is at least 1 / Dn away from the integers around it *)
    assert (Hlt : B - q < inject_Z g) by lra.
    assert (HtD : (B - q) * Dn == inject_Z (b * d)).
    { setoid_replace ((B - q) * Dn) with (B * Dn - q * Dn) by ring.
      rewrite HqD. unfold B, Dn.
      rewrite <- inject_Z_mult, inject_Z_sub. f_equiv. ring. }
    assert (Hup : (B - q) * Dn + 1 <= inject_Z g * Dn).
    { assert (H : (B - q) * Dn < inject_Z g * Dn)
        by (apply Qmult_lt_compat_r; assumption).
      rewrite HtD in H. unfold Dn in H.
      rewrite <- inject_Z_mult, <- Zlt_Qlt in H.
      rewrite HtD. unfold Dn. rewrite <- inject_Z_mult.
      change 1 with (inject_Z 1). rewrite <- inject_Z_plus, <- Zle_Qle. lia. }
    assert (Hdn : inject_Z (g - 1) * Dn + 1 <= (B - q) * Dn).
    { assert (H : inject_Z (g - 1) * Dn < (B - q) * Dn)
        by (apply Qmult_lt_compat_r; assumption).
      rewrite HtD in H. unfold Dn in H.
      rewrite <- inject_Z_mult, <- Zlt_Qlt in H.
      rewrite HtD. unfold Dn. rewrite <- inject_Z_mult.
      change 1 with (inject_Z 1). rewrite <- inject_Z_plus, <- Zle_Qle. lia. }
    assert (Hg1' : (1 <= g)%Z).
    { destruct (Z.eq_dec g 0) as [E0|N0]; [|lia].
      exfalso. rewrite E0 in Hg1. change (inject_Z 0) with 0 in Hg1.
      apply NE. rewrite E0. change (inject_Z 0) with 0. lra. }
    assert (Hgm : 0 <= inject_Z (g - 1))
      by (change 0 with (inject_Z 0); rewrite <- Zle_Qle; lia).
    (* the quotient is rounded with a small relative error *)
    assert (Hqpos : 0 < q).
    { destruct (Qlt_le_dec 0 q) as [H|H]; [exact H|].
      exfalso. apply NE.
      assert (Eq0 : q == 0) by lra.
      assert (EB : B - q == inject_Z b) by (fold B; lra).
      unfold g. rewrite (Qceiling_comp _ _ EB), Qceiling_Z. exact EB. }
    assert (HqD1 : 1 <= q * Dn).
    { rewrite HqD.
      assert (H : 0 < inject_Z (a * b)).
      { destruct (Qlt_le_dec 0 (inject_Z (a * b))) as [H|H]; [exact H|].
        exfalso. assert (E0 : q * Dn == 0) by (rewrite HqD; lra).
        assert (Hc : 0 < q * Dn) by (apply Qmult_lt_0_compat; assumption).
        lra. }
      change 0 with (inject_Z 0) in H. rewrite <- Zlt_Qlt in H.
      change 1 with (inject_Z 1). rewrite <- Zle_Qle. lia. }
    pose proof (pow2_pos (-53)) as Heps.
    pose proof (pow2_pos (-51)) as H51.
    assert (H5151 : 2 ^ (-51) * 2 ^ 51 == 1) by (rewrite <- pow2_add; reflexivity).
    assert (Hq51 : 2 ^ (-51) <= q).
    { apply (scale_le _ _ Dn HDq).
      apply Qle_trans with 1; [|exact HqD1].
      rewrite <- H5151. apply Qmult_le_l; assumption. }
    pose proof quarter_pow as Hquarter.
    set (eps := 2 ^ (-53)) in *.
    assert (HBeps : B * eps * Dn <= 1 # 4).
    { setoid_replace (B * eps * Dn) with (B * Dn * eps) by ring.
      rewrite <- Hquarter. apply Qmult_le_compat_r; lra. }
    assert (Hqeps : q * eps * Dn <= 1 # 4).
    { apply Qle_trans with (B * eps * Dn); [|exact HBeps].
      apply Qmult_le_compat_r; [|lra].
      apply Qmult_le_compat_r; lra. }
    destruct (round64_error q Hqpos) as (q' & Eq' & Hq'lo & Hq'hi).
    { apply Z.le_trans with (-51)%Z; [lia | apply expo_ge; exact Hq51]. }
    { apply Qle_trans with (2 ^ 51); [lra | apply pow2_le; lia]. }
    fold eps in Hq'lo, Hq'hi.
    rewrite Eq'. cbn [sub neg add].
    assert (Hy'lo : (B + - q') * Dn >= (B - q) * Dn - (1 # 4)).
    { assert (H : q' * Dn <= (q + q * eps) * Dn)
        by (apply Qmult_le_compat_r; lra).
      lra. }
    assert (Hy'hi : (B + - q') * Dn <= (B - q) * Dn + (1 # 4)).
    { assert (H : (q - q * eps) * Dn <= q' * Dn)
        by (apply Qmult_le_compat_r; lra).
      lra. }
    set (y := B + - q') in *.
    assert (HyD : (3 # 4) <= y * Dn).
    { assert (H : 0 <= inject_Z (g - 1) * Dn) by (apply Qmult_le_0_compat; lra).
      lra. }
    assert (Hypos : 0 < y).
    { apply (scale_lt _ _ Dn HDq). lra. }
    assert (HyB : y <= B).
    { assert (H : 0 <= q') by (assert (Hs : q * eps <= q * 1)
        by (apply Qmult_le_l; [exact Hqpos|];
            apply Qle_trans with (2 ^ 0); [apply pow2_le; lia | apply Qle_refl]);
        lra).
      unfold y. lra. }
    assert (Hy52 : 2 ^ (-52) <= y).
    { apply (scale_le _ _ Dn HDq).
      assert (H5252 : 2 ^ (-52) * 2 ^ 51 == 1 # 2) by (rewrite <- pow2_add; reflexivity).
      assert (H : 2 ^ (-52) * Dn <= 2 ^ (-52) * 2 ^ 51)
        by (apply Qmult_le_l; [apply pow2_pos | exact HD51q]).
      lra. }
    destruct (round64_error y Hypos) as (x' & Ex' & Hx'lo & Hx'hi).
    { apply Z.le_trans with (-52)%Z; [lia | apply expo_ge; exact Hy52]. }
    { apply Qle_trans with (2 ^ 51); [lra | apply pow2_le; lia]. }
    fold eps in Hx'lo, Hx'hi.
    rewrite Ex'. cbn [Math_ceil]. do 2 f_equal.
    assert (Hyeps : y * eps * Dn <= 1 # 4).
    { apply Qle_trans with (B * eps * Dn); [|exact HBeps].
      apply Qmult_le_compat_r; [|lra].
      apply Qmult_le_compat_r; lra. }
    assert (Hx1 : x' * Dn <= (y + y * eps) * Dn)
      by (apply Qmult_le_compat_r; lra).
    assert (Hx2 : (y - y * eps) * Dn <= x' * Dn)
      by (apply Qmult_le_compat_r; lra).
    apply Qceiling_unique.
    + apply (scale_lt _ _ Dn HDq). lra.
    + apply (scale_le _ _ Dn HDq). lra.
Qed.

(** ** The binary64 values *)

Lemma mant_range (q : Q) : 0 < q -> (0 <= mant q <= 2 ^ 53)%Z.
Proof.
  intros Hq. unfold mant.
  pose proof (pow2_pos (kexp q)) as Hp.
  destruct (expo_spec q Hq) as [_ Ehi].
  split.
  - apply Z_le_rne. change (inject_Z 0) with 0.
    apply Qle_shift_div_l; [exact Hp | lra].
  - apply rne_le_Z. apply Qle_shift_div_r; [exact Hp|].
    rewrite <- pow2_Z by lia. rewrite <- pow2_add.
    apply Qle_trans with (2 ^ (expo q + 1)); [lra|].
    apply pow2_le. unfold kexp. lia.
Qed.

(** A positive rational on a grid of binary64 values is on the grid of its
    own binade. *)
Lemma grid_exact (q : Q) (m k : Z) :
  0 < q -> q == inject_Z m * 2 ^ k -> (m <= 2 ^ 53)%Z -> (-1074 <= k)%Z ->
  exists m' : Z, q == inject_Z m' * 2 ^ kexp q.
Proof.
  intros Hq E Hm Hk.
  pose proof (pow2_pos k) as Hp.
  destruct (Z.le_gt_cases (kexp q) k) as [Hle|Hgt].
  - exists (m * 2 ^ (k - kexp q))%Z.
    rewrite inject_Z_mult, <- pow2_Z by lia.
    rewrite <- Qmult_assoc, <- pow2_add.
    replace (k - kexp q + kexp q)%Z with k by lia. exact E.
  - destruct (expo_spec q Hq) as [Elo Ehi].
    assert (He : (k + 53 <= expo q)%Z) by (unfold kexp in Hgt; lia).
    assert (Hlow : 2 ^ (k + 53) <= q).
    { apply Qle_trans with (2 ^ expo q); [apply pow2_le; exact He | exact Elo]. }
    assert (Hm53 : inject_Z (2 ^ 53) <= inject_Z m).
    { apply (scale_le _ _ (2 ^ k) Hp). rewrite <- E.
      rewrite <- pow2_Z by lia. rewrite <- pow2_add.
      replace (53 + k)%Z with (k + 53)%Z by lia. exact Hlow. }
    rewrite <- Zle_Qle in Hm53.
    assert (Em : m = (2 ^ 53)%Z) by lia.
    assert (Eq : q == 2 ^ (k + 53)).
    { rewrite E, Em, <- pow2_Z by lia. rewrite <- pow2_add.
      replace (53 + k)%Z with (k + 53)%Z by lia. reflexivity. }
    assert (Ee : expo q = (k + 53)%Z).
    { apply expo_unique; [lra|]. rewrite Eq. apply pow2_lt. lia. }
    exists (2 ^ 52)%Z.
    assert (Ek : kexp q = (k + 1)%Z) by (unfold kexp; lia).
    rewrite Ek, Eq, <- pow2_Z by lia. rewrite <- pow2_add.
    replace (52 + (k + 1))%Z with (k + 53)%Z by lia. reflexivity.
Qed.

Lemma round64_on_grid (q : Q) (m k : Z) :
  0 < q -> q == inject_Z m * 2 ^ k -> (m <= 2 ^ 53)%Z -> (-1074 <= k)%Z ->
  q < 2 ^ 1024 ->
  round64 q = Fin (Qred q).
Proof.
  intros Hq E Hm Hk Hlt.
  destruct (grid_exact q m k Hq E Hm Hk) as [m' E'].
  rewrite (round64_pos q Hq).
  apply round_pos_exact with (m := m'); assumption.
Qed.

(** The integers next to a binary64 value are binary64 values. *)
Lemma round64_int_of_grid (y : Q) (m k z : Z) :
  0 <= y -> y == inject_Z m * 2 ^ k -> (0 <= m <= 2 ^ 53)%Z -> (-1074 <= k)%Z ->
  y < 2 ^ 1024 ->
  z = Qfloor y \/ z = Qceiling y ->
  round64 (inject_Z z) = Fin (inject_Z z).
Proof.
  intros Hy E Hm Hk Hlt Hz.
  pose proof (pow2_pos k) as Hp.
  destruct (Z.le_gt_cases 0 k) as [Hk0|Hk0].
  - assert (Ey : y == inject_Z (m * 2 ^ k)).
    { rewrite inject_Z_mult, <- pow2_Z by exact Hk0. exact E. }
    assert (Ez : z = (m * 2 ^ k)%Z).
    { destruct Hz as [-> | ->].
      - rewrite (Qfloor_comp _ _ Ey). apply Qfloor_Z.
      - rewrite (Qceiling_comp _ _ Ey). apply Qceiling_Z. }
    destruct (Z.eq_dec z 0) as [E0|N0]; [rewrite E0; reflexivity|].
    assert (Hzpos : 0 < inject_Z z).
    { apply inject_Z_pos. assert (0 <= 2 ^ k)%Z by (apply Z.pow_nonneg; lia). nia. }
    rewrite <- (Qred_inject_Z z) at 2.
    apply round64_on_grid with (m := m) (k := k); try lia; try assumption.
    + rewrite Ez, <- Ey. exact E.
    + rewrite Ez, <- Ey. exact Hlt.
  - apply round64_Z.
    assert (Hy52 : y <= inject_Z (2 ^ 52)).
    { rewrite E. apply Qle_trans with (inject_Z (2 ^ 53) * 2 ^ k).
      - apply Qmult_le_compat_r; [rewrite <- Zle_Qle; lia | lra].
      - rewrite <- !pow2_Z by lia.
        assert (Hk1 : 2 ^ k <= 2 ^ (-1)) by (apply pow2_le; lia).
        assert (H52 : 2 ^ 52 == 2 ^ 53 * 2 ^ (-1)) by (rewrite <- pow2_add; reflexivity).
        rewrite H52. apply Qmult_le_l; [apply pow2_pos | exact Hk1]. }
    assert (H0 : inject_Z (-1) < y) by (change (inject_Z (-1)) with (- (1)); lra).
    destruct Hz as [-> | ->].
    + pose proof (Qfloor_le y) as H1. pose proof (Qlt_floor y) as H2.
      assert (A : inject_Z (Qfloor y) <= inject_Z (2 ^ 52)) by lra.
      assert (B : inject_Z (-1) < inject_Z (Qfloor y + 1)) by lra.
      rewrite <- Zle_Qle in A. rewrite <- Zlt_Qlt in B. lia.
    + pose proof (Qle_ceiling y) as H1. pose proof (Qceiling_lt y) as H2.
      assert (A : inject_Z (Qceiling y - 1) < inject_Z (2 ^ 52)) by lra.
      assert (B : inject_Z (-1) < inject_Z (Qceiling y)) by lra.
      rewrite <- Zlt_Qlt in A, B. lia.
Qed.

Lemma round_pos_int (q x : Q) (z : Z) :
  0 < q -> round_pos q = Fin x ->
  z = Qfloor x \/ z = Qceiling x ->
  round64 (inject_Z z) = Fin (inject_Z z).
Proof.
  intros Hq Er Hz.
  destruct (round_pos_cases q) as [[E _]|[E Hlt]]; rewrite E in Er;
    [discriminate Er|].
  injection Er as <-.
  pose proof (Qred_correct (val q)) as Ev.
  apply round64_int_of_grid with (y := val q) (m := mant q) (k := kexp q).
  - apply val_nonneg. lra.
  - reflexivity.
  - apply mant_range. exact Hq.
  - unfold kexp. lia.
  - exact Hlt.
  - rewrite <- (Qfloor_comp _ _ Ev), <- (Qceiling_comp _ _ Ev). exact Hz.
Qed.

Lemma round64_opp_Z (z : Z) :
  round64 (inject_Z z) = Fin (inject_Z z) ->
  round64 (inject_Z (- z)) = Fin (inject_Z (- z)).
Proof.
  intros E. change (inject_Z (- z)) with (- inject_Z z).
  rewrite round64_opp, E. reflexivity.
Qed.

Lemma Qceiling_opp (x : Q) : Qceiling (- x) = (- Qfloor x)%Z.
Proof. unfold Qceiling. rewrite Qopp_opp. reflexivity. Qed.

(** [Math.ceil] of a binary64 value is a binary64 value. *)
Lemma round64_ceiling (q x : Q) :
  round64 q = Fin x ->
  round64 (inject_Z (Qceiling x)) = Fin (inject_Z (Qceiling x)).
Proof.
  intros E.
  destruct (Qcompare_spec q 0) as [H|H|H].
  - rewrite (round64_zero q H) in E. injection E as <-. reflexivity.
  - rewrite (round64_neg q H) in E.
    destruct (round_pos (- q)) as [x'| | |] eqn:Er; try discriminate E.
    injection E as <-. rewrite Qceiling_opp.
    apply round64_opp_Z.
    apply round_pos_int with (q := - q) (x := x'); [lra | exact Er | left; reflexivity].
  - rewrite (round64_pos q H) in E.
    apply round_pos_int with (q := q) (x := x); [exact H | exact E | right; reflexivity].
Qed.

Lemma add_finite_inv (x y : number) (r : Q) :
  (x + y)%num = Fin r -> exists a b : Q, x = Fin a /\ y = Fin b /\ round64 (a + b) = Fin r.
Proof.
  destruct x as [a| | |], y as [b| | |]; cbn [add]; try discriminate.
  intros E. exists a, b. repeat split. exact E.
Qed.

(** A finite gross amount is an integer that binary64 holds. *)
Lemma grossToAmount_finite_inv (a b f d : number) (g : Q) :
  grossToAmount (swapSteps a b f d) = Fin g ->
  exists z : Z, g = inject_Z z /\ round64 (inject_Z z) = Fin (inject_Z z).
Proof.
  unfold swapSteps. cbn [grossToAmount]. intros E.
  destruct (b - a * b / (a + d))%num as [x| | |] eqn:Ex; try discriminate E.
  cbn [Math_ceil] in E. injection E as <-.
  exists (Qceiling x). split; [reflexivity|].
  unfold sub in Ex.
  destruct (add_finite_inv _ _ _ Ex) as (u & v & _ & _ & Er).
  apply round64_ceiling with (q := u + v). exact Er.
Qed.

(** ** The fee and the amount returned *)

Lemma inject_Z_nonneg (z : Z) : (0 <= z)%Z -> 0 <= inject_Z z.
Proof. rewrite (Zle_Qle 0 z). trivial. Qed.

Lemma inject_Z_nonneg_inv (z : Z) : 0 <= inject_Z z -> (0 <= z)%Z.
Proof. rewrite (Zle_Qle 0 z). trivial. Qed.

Lemma number_le_Fin_inv (x : number) (lo hi : Q) :
  number_le (Fin lo) x -> number_le x (Fin hi) ->
  exists q : Q, x = Fin q /\ lo <= q <= hi.
Proof.
  destruct x as [q| | |]; cbn; try tauto.
  intros H1 H2. exists q. split; [reflexivity | split; assumption].
Qed.

(** The rounding of a rational between two integers that binary64 holds
    stays between them. *)
Lemma round64_between (q : Q) (lo hi : Z) :
  (Z.abs lo <= 2 ^ 53)%Z -> (Z.abs hi <= 2 ^ 53)%Z ->
  inject_Z lo <= q <= inject_Z hi ->
  exists x : Q, round64 q = Fin x /\ inject_Z lo <= x <= inject_Z hi.
Proof.
  intros Hlo Hhi [H1 H2].
  apply number_le_Fin_inv.
  - rewrite <- (round64_Z lo Hlo). apply round64_mono. exact H1.
  - rewrite <- (round64_Z hi Hhi). apply round64_mono. exact H2.
Qed.

Lemma floor_between (x : Q) (lo hi : Z) :
  inject_Z lo <= x <= inject_Z hi -> (lo <= Qfloor x <= hi)%Z.
Proof.
  intros [H1 H2]. split.
  - rewrite <- (Qfloor_Z lo). apply Qfloor_resp_le. exact H1.
  - rewrite <- (Qfloor_Z hi). apply Qfloor_resp_le. exact H2.
Qed.

(** The fee on a gross amount g that binary64 holds, for a fee ratio in
    [0, 1]: the floor of the rounded product is the floor of the exact
    product or one more, it is the former when the product needs no
    rounding, and the subtraction that follows is exact. *)
Lemma fees_in_range (g : Z) (f : Q) :
  (0 <= g <= 2 ^ 53)%Z -> 0 <= f <= 1 ->
  exists e : Z,
    Math_floor (Fin (inject_Z g) * Fin f)%num = Fin (inject_Z e)
    /\ (Fin (inject_Z g) - Fin (inject_Z e))%num = Fin (inject_Z (g - e))
    /\ (0 <= e <= g)%Z
    /\ (Spec.fee g f <= e <= Spec.fee g f + 1)%Z
    /\ (double (inject_Z g * f) -> e = Spec.fee g f).
Proof.
  intros Hg [Hf0 Hf1].
  assert (HG : 0 <= inject_Z g) by (apply inject_Z_nonneg; lia).
  assert (Hprod : inject_Z 0 <= inject_Z g * f <= inject_Z g).
  { change (inject_Z 0) with 0. split; nra. }
  destruct (round64_between (inject_Z g * f) 0 g) as (x & Ex & Hx);
    [lia | lia | exact Hprod |].
  exists (Qfloor x). cbn [mul]. rewrite Ex. cbn [Math_floor].
  pose proof (floor_between x 0 g Hx) as He.
  split; [reflexivity|].
  split.
  { cbn [sub neg add].
    change (- inject_Z (Qfloor x)) with (inject_Z (- Qfloor x)).
    rewrite <- inject_Z_plus. rewrite round64_Z by lia.
    do 2 f_equal. }
  split; [exact He|].
  unfold Spec.fee.
  set (phi := Qfloor (inject_Z g * f)).
  pose proof (Qfloor_le (inject_Z g * f)) as Hphi1.
  pose proof (Qlt_floor (inject_Z g * f)) as Hphi2.
  fold phi in Hphi1, Hphi2.
  pose proof (floor_between (inject_Z g * f) 0 g Hprod) as Hphi. fold phi in Hphi.
  split; [split|].
  - (* phi is a binary64 value below the product *)
    assert (Hle : number_le (round64 (inject_Z phi)) (round64 (inject_Z g * f)))
      by (apply round64_mono; exact Hphi1).
    rewrite round64_Z, Ex in Hle by lia. cbn in Hle.
    rewrite <- (Qfloor_Z phi). apply Qfloor_resp_le. exact Hle.
  - destruct (Z.eq_dec phi g) as [E|NE]; [lia|].
    assert (Hle : number_le (round64 (inject_Z g * f)) (round64 (inject_Z (phi + 1))))
      by (apply round64_mono; lra).
    rewrite round64_Z, Ex in Hle by lia. cbn in Hle.
    rewrite <- (Qfloor_Z (phi + 1)). apply Qfloor_resp_le. exact Hle.
  - intros (x' & Ex' & Eq). rewrite Ex in Ex'. injection Ex' as <-.
    apply Qfloor_comp. exact Eq.
Qed.

(** * Properties of the pool *)

(** ** The exact gross amount *)

Lemma ceiling_bounds (x : Q) : x <= inject_Z (Qceiling x) /\ inject_Z (Qceiling x) < x + 1.
Proof.
  split; [apply Qle_ceiling|].
  pose proof (Qceiling_lt x) as Hlt.
  rewrite <- inject_Z_sub in Hlt. change (inject_Z 1) with 1 in Hlt. lra.
Qed.

(** The new reserve of the output side, [invariant / newFrom], times the
    new reserve of the input side gives the invariant back. *)
Lemma newTo_times_newFrom (a b d : Q) :
  ~ a + d == 0 -> (a + d) * (a * b / (a + d)) == a * b.
Proof. intros Hnz. field. exact Hnz. Qed.

(** What is taken from the output side before rounding, [to - newTo], is
    the share [d / (a + d)] of the output reserve. *)
Lemma output_share (a b d : Q) :
  ~ a + d == 0 -> (a + d) * (b - a * b / (a + d)) == b * d.
Proof. intros Hnz. field. exact Hnz. Qed.

Lemma grossOutput_product (a b d : Q) :
  0 < a + d ->
  (a + d) * (b - inject_Z (Spec.grossOutput a b d)) <= a * b
  /\ a * b < (a + d) * (b - inject_Z (Spec.grossOutput a b d)) + (a + d).
Proof.
  intros Hpos. unfold Spec.grossOutput.
  assert (Hx : (a + d) * (a * b / (a + d)) == a * b)
    by (apply newTo_times_newFrom; lra).
  set (x := a * b / (a + d)) in *.
  destruct (ceiling_bounds (b - x)) as [Hlo Hhi].
  set (g := inject_Z (Qceiling (b - x))) in *.
  split; nra.
Qed.

Lemma grossOutput_nonneg (a b d : Q) :
  0 <= b -> 0 <= d -> 0 < a + d -> (0 <= Spec.grossOutput a b d)%Z.
Proof.
  intros Hb Hd Hpos.
  apply inject_Z_nonneg_inv. unfold Spec.grossOutput.
  assert (Hdx : (a + d) * (b - a * b / (a + d)) == b * d)
    by (apply output_share; lra).
  set (y := b - a * b / (a + d)) in *.
  destruct (ceiling_bounds y) as [Hlo _].
  apply Qle_trans with y; [|exact Hlo].
  nra.
Qed.

Lemma grossOutput_le_reserve (a b d : Q) (z : Z) :
  0 <= a -> b == inject_Z z -> (0 <= z)%Z -> 0 < a + d ->
  (Spec.grossOutput a b d <= z)%Z.
Proof.
  intros Ha Eb Hz Hpos. unfold Spec.grossOutput.
  rewrite <- (Qceiling_Z z). apply Qceiling_resp_le.
  assert (Hs : (a + d) * (b - a * b / (a + d)) == b * d)
    by (apply output_share; lra).
  apply inject_Z_nonneg in Hz.
  set (y := b - a * b / (a + d)) in *.
  nra.
Qed.

Lemma grossOutput_zero_input (a b : Q) :
  ~ a == 0 -> Spec.grossOutput a b 0 = 0%Z.
Proof.
  intros Hnz. unfold Spec.grossOutput.
  transitivity (Qceiling 0); [|reflexivity].
  apply Qceiling_comp. field. lra.
Qed.

(** The gross amount on small integers, an empty output side included. *)
Lemma gross_exact (a b d : Z) (f : number) :
  (0 <= a)%Z -> (0 <= b)%Z -> (0 <= d)%Z -> (0 < a + d)%Z ->
  ((a + d) * b <= 2 ^ 51)%Z ->
  grossToAmount (swapSteps (Fin (inject_Z a)) (Fin (inject_Z b)) f (Fin (inject_Z d)))
  = Fin (inject_Z (Spec.grossOutput (inject_Z a) (inject_Z b) (inject_Z d))).
Proof.
  intros Ha Hb Hd Hpos Hsize.
  destruct (Z.eq_dec b 0) as [E0|N0].
  - subst b. unfold swapSteps. cbn [grossToAmount mul].
    assert (HDq : 0 < inject_Z a + inject_Z d).
    { rewrite <- inject_Z_plus. apply inject_Z_pos. exact Hpos. }
    rewrite (round64_zero (inject_Z a * inject_Z 0))
      by (change (inject_Z 0) with 0; ring).
    assert (Hg : Spec.grossOutput (inject_Z a) (inject_Z 0) (inject_Z d) = 0%Z).
    { unfold Spec.grossOutput. transitivity (Qceiling 0); [|reflexivity].
      apply Qceiling_comp. change (inject_Z 0) with 0. field. lra. }
    rewrite Hg.
    assert (Hone : number_le (Fin 1) (Fin (inject_Z a) + Fin (inject_Z d))%num).
    { cbn [add]. change (Fin 1) with (Fin (inject_Z 1)).
      rewrite <- (round64_Z 1) by lia.
      apply round64_mono. rewrite <- inject_Z_plus, <- Zle_Qle. lia. }
    destruct (Fin (inject_Z a) + Fin (inject_Z d))%num as [s| | |];
      cbn in Hone; try contradiction.
    + cbn [div].
      destruct (Qeq_bool s 0) eqn:E.
      * exfalso. apply Qeq_bool_eq in E. lra.
      * rewrite (round64_zero (0 / s)) by (unfold Qdiv; ring).
        reflexivity.
    + reflexivity.
  - apply gross_exact_pos; try assumption. lia.
Qed.

(** ** The steps of a swap *)

(** Past the assertion the function returns the gross amount less the fees. *)
Lemma calculateAmountInOtherToken_accepts `{TokenLayer}
  (p : Pool) (t : Token) (d : number) :
  Token_equals t (mint (tokenA p)) || Token_equals t (mint (tokenB p)) = true ->
  calculateAmountInOtherToken p t d =
  Ok (grossToAmount (calculateSteps p t d) - fees (calculateSteps p t d))%num.
Proof.
  intros Hvalid. unfold calculateAmountInOtherToken.
  rewrite Hvalid. reflexivity.
Qed.

Lemma fees_of_gross (a b f d : number) :
  fees (swapSteps a b f d)
  = Math_floor (grossToAmount (swapSteps a b f d) * f)%num.
Proof. reflexivity. Qed.

Lemma gross_without_fee (a b f f' d : number) :
  grossToAmount (swapSteps a b f d) = grossToAmount (swapSteps a b f' d).
Proof. reflexivity. Qed.

(** A swap on small integers: the gross amount is the exact one, the fee is
    the floor of the rounded product, and nothing else is rounded. *)
Lemma swap_on_small_integers `{TokenLayer}
  (p : Pool) (t : Token) (a b d : Z) (f : Q) :
  fromAmountInPool p t = Fin (inject_Z a) ->
  toAmountInPool p t = Fin (inject_Z b) ->
  feeRatio p = Fin f ->
  Token_equals t (mint (tokenA p)) || Token_equals t (mint (tokenB p)) = true ->
  (0 <= a)%Z -> (0 <= b)%Z -> (0 <= d)%Z -> (0 < a + d)%Z ->
  ((a + d) * b <= 2 ^ 51)%Z ->
  0 <= f <= 1 ->
  exists e : Z,
    grossToAmount (calculateSteps p t (Fin (inject_Z d)))
    = Fin (inject_Z (Spec.grossOutput (inject_Z a) (inject_Z b) (inject_Z d)))
    /\ fees (calculateSteps p t (Fin (inject_Z d))) = Fin (inject_Z e)
    /\ calculateAmountInOtherToken p t (Fin (inject_Z d))
       = Ok (Fin (inject_Z
                    (Spec.grossOutput (inject_Z a) (inject_Z b) (inject_Z d) - e)))
    /\ (0 <= e <= Spec.grossOutput (inject_Z a) (inject_Z b) (inject_Z d))%Z
    /\ (Spec.grossOutput (inject_Z a) (inject_Z b) (inject_Z d) <= b)%Z
    /\ (Spec.fee (Spec.grossOutput (inject_Z a) (inject_Z b) (inject_Z d)) f <= e
        <= Spec.fee (Spec.grossOutput (inject_Z a) (inject_Z b) (inject_Z d)) f + 1)%Z
    /\ (double (inject_Z (Spec.grossOutput (inject_Z a) (inject_Z b) (inject_Z d)) * f) ->
        e = Spec.fee (Spec.grossOutput (inject_Z a) (inject_Z b) (inject_Z d)) f).
Proof.
  intros Hfrom Hto Hfee Hvalid Ha Hb Hd Hpos Hsize Hf.
  rewrite calculateAmountInOtherToken_accepts by exact Hvalid.
  unfold calculateSteps. rewrite Hfrom, Hto, Hfee.
  rewrite fees_of_gross, (gross_exact a b d (Fin f) Ha Hb Hd Hpos Hsize).
  set (g := Spec.grossOutput (inject_Z a) (inject_Z b) (inject_Z d)).
  assert (HDq : 0 < inject_Z a + inject_Z d).
  { rewrite <- inject_Z_plus. apply inject_Z_pos. exact Hpos. }
  assert (Hg0 : (0 <= g)%Z).
  { apply grossOutput_nonneg; [apply inject_Z_nonneg; lia .. | exact HDq]. }
  assert (Hgb : (g <= b)%Z).
  { apply grossOutput_le_reserve;
      [apply inject_Z_nonneg; lia | reflexivity | exact Hb | exact HDq]. }
  assert (Hb51 : (b <= 2 ^ 51)%Z) by nia.
  destruct (fees_in_range g f) as (e & Efee & Esub & He & Hnear & Hexact);
    [lia | exact Hf |].
  exists e. rewrite Efee, Esub. repeat split; try assumption; lia.
Qed.

(** ** The swap computation *)

(** C1 (as stated, refuted).  On the pool with reserves
    (24901978364, 8976255684) and fee ratio 1/4, a swap of 68401 units of A
    returns 18492, and the eight steps computed with exact division give
    18493: the rounded quotient falls on the other side of an integer. *)
Lemma swap_differs_from_exact_steps :
  calculateAmountInOtherToken
    (localPool 24901978364 8976255684 (1 # 4)) "A"%string (Fin 68401)
  = Ok (Fin 18492)
  /\ Spec.swapOutput 24901978364 8976255684 (1 # 4) 68401 = Some 18493%Z
  /\ calculateAmountInOtherToken
       (localPool 24901978364 8976255684 (1 # 4)) "A"%string (Fin 68401)
     <> Ok (Fin (inject_Z 18493)).
Proof.
  split; [vm_compute; reflexivity|]. split; [vm_compute; reflexivity|].
  vm_compute. intros Heq. discriminate Heq.
Qed.

(** C1 (amended).  For a swap whose input token is token A or token B of
    the pool, with the reserves taken in the order (A, B), or (B, A) when
    the input token is token B: on integral non-negative reserves and input
    amount with fromReserve + inputAmount > 0 and
    (fromReserve + inputAmount) * toReserve <= 2^51, and a fee ratio in
    [0, 1], the function returns an integer that is the net output of the
    specification's eight steps or one unit less, and is that net output
    when the product grossOutput * feeRatio is a binary64 value. *)
Theorem calculateAmountInOtherToken_follows_spec `{TokenLayer}
  (p : Pool) (t : Token) (ra rb d : Z) (f : Q) :
  balance (tokenA p) = Fin (inject_Z ra) ->
  balance (tokenB p) = Fin (inject_Z rb) ->
  feeRatio p = Fin f ->
  0 <= f <= 1 ->
  Token_equals t (mint (tokenA p)) || Token_equals t (mint (tokenB p)) = true ->
  let reverse := Token_equals (mint (tokenB p)) t in
  let fromReserve := if reverse then rb else ra in
  let toReserve := if reverse then ra else rb in
  (0 <= fromReserve)%Z -> (0 <= toReserve)%Z -> (0 <= d)%Z ->
  (0 < fromReserve + d)%Z ->
  ((fromReserve + d) * toReserve <= 2 ^ 51)%Z ->
  exists netOutput exact : Z,
    calculateAmountInOtherToken p t (Fin (inject_Z d)) = Ok (Fin (inject_Z netOutput))
    /\ Spec.swapOutput (inject_Z fromReserve) (inject_Z toReserve) f (inject_Z d)
       = Some exact
    /\ (exact - 1 <= netOutput <= exact)%Z
    /\ (double (inject_Z (Spec.grossOutput (inject_Z fromReserve) (inject_Z toReserve)
                            (inject_Z d)) * f) ->
        netOutput = exact).
Proof.
  intros HA HB Hfee Hf Hvalid reverse fromReserve toReserve Ha Hb Hd Hpos Hsize.
  assert (Hfrom : fromAmountInPool p t = Fin (inject_Z fromReserve)).
  { unfold fromAmountInPool, isReverse. fold reverse. unfold fromReserve.
    destruct reverse; assumption. }
  assert (Hto : toAmountInPool p t = Fin (inject_Z toReserve)).
  { unfold toAmountInPool, isReverse. fold reverse. unfold toReserve.
    destruct reverse; assumption. }
  destruct (swap_on_small_integers p t fromReserve toReserve d f
              Hfrom Hto Hfee Hvalid Ha Hb Hd Hpos Hsize Hf)
    as (e & _ & _ & Enet & _ & _ & Hnear & Hexact).
  set (g := Spec.grossOutput (inject_Z fromReserve) (inject_Z toReserve) (inject_Z d))
    in *.
  exists (g - e)%Z, (g - Spec.fee g f)%Z.
  split; [exact Enet|]. split; [|split].
  - unfold Spec.swapOutput.
    assert (Hnz : Qeq_bool (inject_Z fromReserve + inject_Z d) 0 = false).
    { destruct (Qeq_bool (inject_Z fromReserve + inject_Z d) 0) eqn:E; [|reflexivity].
      apply Qeq_bool_eq in E. rewrite <- inject_Z_plus in E.
      pose proof (inject_Z_pos _ Hpos). exfalso; lra. }
    rewrite Hnz. reflexivity.
  - lia.
  - intros Hd64. rewrite (Hexact Hd64). reflexivity.
Qed.

Lemma calculateAmountInOtherToken_follows_spec_at_test_pool :
  exists netOutput exact : Z,
    calculateAmountInOtherToken (localPool 1000 2000 (1 # 4)) "A"%string
      (Fin (inject_Z 5))
    = Ok (Fin (inject_Z netOutput))
    /\ Spec.swapOutput (inject_Z 1000) (inject_Z 2000) (1 # 4) (inject_Z 5) = Some exact
    /\ (exact - 1 <= netOutput <= exact)%Z
    /\ (double (inject_Z (Spec.grossOutput (inject_Z 1000) (inject_Z 2000) (inject_Z 5))
                * (1 # 4)) ->
        netOutput = exact).
Proof.
  apply (@calculateAmountInOtherToken_follows_spec localnet
           (localPool 1000 2000 (1 # 4)) "A"%string 1000 2000 5 (1 # 4));
    try reflexivity; try (cbn; lia).
  split; unfold Qle; cbn; lia.
Defined.

(** C2 (as stated, refuted).  On the pool with reserves (0, 2000) and fee
    ratio 1/4 the input side A is empty, yet a swap of 5 units of A throws
    nothing: it returns 1500. *)
Lemma empty_input_side_returns_a_number :
  fromAmountInPool (localPool 0 2000 (1 # 4)) "A"%string = Fin 0
  /\ calculateAmountInOtherToken (localPool 0 2000 (1 # 4)) "A"%string (Fin 5)
     = Ok (Fin 1500)
  /\ ~ (exists e : exn,
          calculateAmountInOtherToken (localPool 0 2000 (1 # 4)) "A"%string (Fin 5)
          = Throw e).
Proof.
  split; [reflexivity|]. split; [vm_compute; reflexivity|].
  intros [e He]. discriminate He.
Qed.

(** C2 (amended).  A swap from a side whose reserve is zero throws nothing:
    for an input amount that is not zero it takes the whole reserve of the
    other side, rounded up, as the gross amount, and returns it less the
    fee on it, the floor of the product of the language. *)
Theorem calculateAmountInOtherToken_empty_input_side `{TokenLayer}
  (p : Pool) (t : Token) (a b f d : Q) :
  fromAmountInPool p t = Fin a ->
  a == 0 ->
  toAmountInPool p t = Fin b ->
  feeRatio p = Fin f ->
  Token_equals t (mint (tokenA p)) || Token_equals t (mint (tokenB p)) = true ->
  double b -> double d -> ~ d == 0 ->
  grossToAmount (calculateSteps p t (Fin d)) = Fin (inject_Z (Qceiling b))
  /\ calculateAmountInOtherToken p t (Fin d)
     = Ok (Fin (inject_Z (Qceiling b))
           - Math_floor (Fin (inject_Z (Qceiling b)) * Fin f))%num.
Proof.
  intros Hfrom Ha Hto Hfee Hvalid (b' & Eb' & Hb') (d' & Ed' & Hd') Hd.
  rewrite calculateAmountInOtherToken_accepts by exact Hvalid.
  unfold calculateSteps. rewrite Hfrom, Hto, Hfee.
  rewrite fees_of_gross.
  assert (Hg : grossToAmount (swapSteps (Fin a) (Fin b) (Fin f) (Fin d))
               = Fin (inject_Z (Qceiling b))).
  { unfold swapSteps. cbn [grossToAmount mul add].
    rewrite (round64_zero (a * b)) by (rewrite Ha; ring).
    assert (Es : a + d == d) by (rewrite Ha; ring).
    rewrite (round64_comp _ _ Es), Ed'. cbn [div].
    assert (Enz : Qeq_bool d' 0 = false).
    { destruct (Qeq_bool d' 0) eqn:E; [|reflexivity].
      apply Qeq_bool_eq in E. exfalso. apply Hd. rewrite <- Hd'. exact E. }
    rewrite Enz, (round64_zero (0 / d')) by (unfold Qdiv; ring).
    cbn [sub neg add].
    assert (Eb : b + - 0 == b) by ring.
    rewrite (round64_comp _ _ Eb), Eb'. cbn [Math_ceil].
    rewrite (Qceiling_comp _ _ Hb'). reflexivity. }
  rewrite Hg. split; reflexivity.
Qed.

Lemma calculateAmountInOtherToken_empty_input_side_at_test_pool :
  grossToAmount (calculateSteps (localPool 0 2000 (1 # 4)) "A"%string (Fin 5))
  = Fin (inject_Z (Qceiling 2000))
  /\ calculateAmountInOtherToken (localPool 0 2000 (1 # 4)) "A"%string (Fin 5)
     = Ok (Fin (inject_Z (Qceiling 2000))
           - Math_floor (Fin (inject_Z (Qceiling 2000)) * Fin (1 # 4)))%num.
Proof.
  apply (@calculateAmountInOtherToken_empty_input_side localnet
           (localPool 0 2000 (1 # 4)) "A"%string 0 2000 (1 # 4) 5);
    try reflexivity.
  - exists 2000. split; [vm_compute; reflexivity | reflexivity].
  - exists 5. split; [vm_compute; reflexivity | reflexivity].
  - intros Hz. discriminate Hz.
Defined.

(** C3.  On a pool with reserves (1000, 2000) and fee ratio 1/4, whose two
    tokens are distinct, a swap of 5 units of A has invariant 2,000,000,
    gross amount 10 and fees 2, and returns 8; on a pool with reserves
    (1005, 1992) and the same fee ratio, a swap of 5 units of B returns 3. *)
Theorem reference_scenario `{TokenLayer} (p q : Pool) :
  Token_equals (mint (tokenA p)) (mint (tokenA p)) = true ->
  Token_equals (mint (tokenB p)) (mint (tokenA p)) = false ->
  balance (tokenA p) = Fin 1000 ->
  balance (tokenB p) = Fin 2000 ->
  feeRatio p = Fin (1 # 4) ->
  Token_equals (mint (tokenB q)) (mint (tokenB q)) = true ->
  balance (tokenA q) = Fin 1005 ->
  balance (tokenB q) = Fin 1992 ->
  feeRatio q = Fin (1 # 4) ->
  (calculateAmountInOtherToken p (mint (tokenA p)) (Fin 5) = Ok (Fin 8)
   /\ invariant (calculateSteps p (mint (tokenA p)) (Fin 5)) = Fin 2000000
   /\ grossToAmount (calculateSteps p (mint (tokenA p)) (Fin 5)) = Fin 10
   /\ fees (calculateSteps p (mint (tokenA p)) (Fin 5)) = Fin 2)
  /\ calculateAmountInOtherToken q (mint (tokenB q)) (Fin 5) = Ok (Fin 3).
Proof.
  intros HAA HBA HA HB Hfee HBB' HA' HB' Hfee'.
  split.
  - rewrite calculateAmountInOtherToken_accepts by (rewrite HAA; reflexivity).
    unfold calculateSteps, fromAmountInPool, toAmountInPool, isReverse.
    rewrite HBA, HA, HB, Hfee.
    repeat split; vm_compute; reflexivity.
  - rewrite calculateAmountInOtherToken_accepts
      by (rewrite HBB'; apply orb_true_r).
    unfold calculateSteps, fromAmountInPool, toAmountInPool, isReverse.
    rewrite HBB', HA', HB', Hfee'.
    vm_compute; reflexivity.
Qed.

Lemma reference_scenario_at_test_pool :
  (calculateAmountInOtherToken (localPool 1000 2000 (1 # 4)) "A"%string (Fin 5)
   = Ok (Fin 8)
   /\ invariant (calculateSteps (localPool 1000 2000 (1 # 4)) "A"%string (Fin 5))
      = Fin 2000000
   /\ grossToAmount (calculateSteps (localPool 1000 2000 (1 # 4)) "A"%string (Fin 5))
      = Fin 10
   /\ fees (calculateSteps (localPool 1000 2000 (1 # 4)) "A"%string (Fin 5)) = Fin 2)
  /\ calculateAmountInOtherToken (localPool 1005 1992 (1 # 4)) "B"%string (Fin 5)
     = Ok (Fin 3).
Proof.
  apply (@reference_scenario localnet
           (localPool 1000 2000 (1 # 4)) (localPool 1005 1992 (1 # 4)));
    reflexivity.
Defined.

(** ** The constant product across a swap *)

(** The bounds of the exact gross amount, on integers. *)
Lemma grossOutput_product_Z (a b d : Z) :
  (0 < a + d)%Z ->
  let g := Spec.grossOutput (inject_Z a) (inject_Z b) (inject_Z d) in
  ((a + d) * (b - g) <= a * b)%Z /\ (a * b < (a + d) * (b - g) + (a + d))%Z.
Proof.
  intros Hpos g.
  assert (HDq : 0 < inject_Z a + inject_Z d).
  { rewrite <- inject_Z_plus. apply inject_Z_pos. exact Hpos. }
  destruct (grossOutput_product (inject_Z a) (inject_Z b) (inject_Z d) HDq)
    as [Hlo Hhi].
  fold g in Hlo, Hhi.
  rewrite inject_Z_sub, <- inject_Z_plus, <- !inject_Z_mult in Hlo, Hhi.
  rewrite <- inject_Z_plus in Hhi.
  rewrite <- Zle_Qle in Hlo. rewrite <- Zlt_Qlt in Hhi.
  split; assumption.
Qed.

(** C4 (as stated, refuted).  On the pool with reserves (1000, 2000) a swap
    of 5 units of A has gross amount 10, and (1000 + 5) * (2000 - 10) is 50
    below 1000 * 2000: the two products are not within 1 of each other. *)
Lemma product_not_within_one_unit :
  grossToAmount (calculateSteps (localPool 1000 2000 (1 # 4)) "A"%string (Fin 5))
  = Fin 10
  /\ ~ (Qabs ((1000 + 5) * (2000 - 10) - 1000 * 2000) <= 1).
Proof.
  split; [vm_compute; reflexivity|].
  intros Hle. vm_compute in Hle. apply Hle. reflexivity.
Qed.

(** C4 (amended).  For a pool with two distinct tokens, integral positive
    reserves a and b and a fee ratio in [0, 1], and an integral input
    d >= 0 of token A with (a + d) * b <= 2^51, the gross amount g is an
    integer with
    (a + d) * (b - g) <= a * b < (a + d) * (b - g) + (a + d),
    that is, b - g is the exact new reserve a * b / (a + d) rounded down by
    less than one unit; and the amount returned is an integer n <= g. *)
Theorem swap_product_within_one_output_unit `{TokenLayer}
  (p : Pool) (a b d : Z) (f : Q) :
  Token_equals (mint (tokenA p)) (mint (tokenA p)) = true ->
  Token_equals (mint (tokenB p)) (mint (tokenA p)) = false ->
  balance (tokenA p) = Fin (inject_Z a) ->
  balance (tokenB p) = Fin (inject_Z b) ->
  feeRatio p = Fin f ->
  (0 < a)%Z -> (0 < b)%Z -> (0 <= d)%Z -> ((a + d) * b <= 2 ^ 51)%Z ->
  0 <= f <= 1 ->
  exists g n : Z,
    grossToAmount (calculateSteps p (mint (tokenA p)) (Fin (inject_Z d)))
    = Fin (inject_Z g)
    /\ calculateTokenBAmount p (Fin (inject_Z d)) = Ok (Fin (inject_Z n))
    /\ ((a + d) * (b - g) <= a * b)%Z
    /\ (a * b < (a + d) * (b - g) + (a + d))%Z
    /\ (n <= g)%Z.
Proof.
  intros HAA HBA HA HB Hfee Ha Hb Hd Hsize Hf.
  assert (Hfrom : fromAmountInPool p (mint (tokenA p)) = Fin (inject_Z a))
    by (unfold fromAmountInPool, isReverse; rewrite HBA; exact HA).
  assert (Hto : toAmountInPool p (mint (tokenA p)) = Fin (inject_Z b))
    by (unfold toAmountInPool, isReverse; rewrite HBA; exact HB).
  assert (Hvalid : Token_equals (mint (tokenA p)) (mint (tokenA p))
                   || Token_equals (mint (tokenA p)) (mint (tokenB p)) = true)
    by (rewrite HAA; reflexivity).
  assert (Hpos : (0 < a + d)%Z) by lia.
  destruct (swap_on_small_integers p (mint (tokenA p)) a b d f
              Hfrom Hto Hfee Hvalid) as (e & Eg & _ & Enet & He & _);
    try assumption; try lia.
  destruct (grossOutput_product_Z a b d Hpos) as [Hlo Hhi].
  set (g := Spec.grossOutput (inject_Z a) (inject_Z b) (inject_Z d)) in *.
  exists g, (g - e)%Z.
  repeat split; try assumption. lia.
Qed.

Lemma swap_product_within_one_output_unit_at_test_pool :
  exists g n : Z,
    grossToAmount (calculateSteps (localPool 1000 2000 (1 # 4)) "A"%string
                     (Fin (inject_Z 5)))
    = Fin (inject_Z g)
    /\ calculateTokenBAmount (localPool 1000 2000 (1 # 4)) (Fin (inject_Z 5))
       = Ok (Fin (inject_Z n))
    /\ ((1000 + 5) * (2000 - g) <= 1000 * 2000)%Z
    /\ (1000 * 2000 < (1000 + 5) * (2000 - g) + (1000 + 5))%Z
    /\ (n <= g)%Z.
Proof.
  apply (@swap_product_within_one_output_unit localnet
           (localPool 1000 2000 (1 # 4)) 1000 2000 5 (1 # 4));
    try (vm_compute; reflexivity); try (cbn; lia).
  split; unfold Qle; cbn; lia.
Defined.

(** ** A swap and its way back *)

(** C5 (as stated, refuted).  On the pool with reserves (1000, 2000) and fee
    ratio 1/4 a swap of 1 unit of A returns 2 units of B; on the updated
    pool, with reserves (1000 + 1, 2000 - 2), swapping those 2 units of B
    back returns 2 units of A, more than the 1 unit put in. *)
Lemma round_trip_returns_more :
  calculateTokenBAmount (localPool 1000 2000 (1 # 4)) (Fin 1) = Ok (Fin 2)
  /\ calculateTokenAAmount (localPool (1000 + 1) (2000 - 2) (1 # 4)) (Fin 2)
     = Ok (Fin 2)
  /\ ~ (2 <= 1).
Proof.
  split; [vm_compute; reflexivity|]. split; [vm_compute; reflexivity|].
  intros Hle. apply Hle. reflexivity.
Qed.

(** C5 (amended).  For a pool with two distinct tokens, integral positive
    reserves a and b and a fee ratio in [0, 1], and an integral input
    d >= 0 with (a + d) * b <= 2^51: swapping d units of A and then, on the
    updated pool with reserves (a + d, b - out), swapping the amount out
    received back returns an integer amount back with
    b * (back - d) < a + d + b, that is, back < d + 1 + (a + d) / b: the two
    roundings up can return more than was put in, by less than
    1 + (a + d) / b. *)
Theorem round_trip_bound `{TokenLayer}
  (p p' : Pool) (a b d : Z) (f : Q) (out : number) :
  Token_equals (mint (tokenA p)) (mint (tokenA p)) = true ->
  Token_equals (mint (tokenB p)) (mint (tokenA p)) = false ->
  balance (tokenA p) = Fin (inject_Z a) ->
  balance (tokenB p) = Fin (inject_Z b) ->
  feeRatio p = Fin f ->
  (0 < a)%Z -> (0 < b)%Z -> (0 <= d)%Z -> ((a + d) * b <= 2 ^ 51)%Z ->
  0 <= f <= 1 ->
  calculateTokenBAmount p (Fin (inject_Z d)) = Ok out ->
  Token_equals (mint (tokenB p')) (mint (tokenB p')) = true ->
  balance (tokenA p') = (balance (tokenA p) + Fin (inject_Z d))%num ->
  balance (tokenB p') = (balance (tokenB p) - out)%num ->
  feeRatio p' = feeRatio p ->
  exists back : Z,
    calculateTokenAAmount p' out = Ok (Fin (inject_Z back))
    /\ (b * (back - d) < a + d + b)%Z.
Proof.
  intros HAA HBA HA HB Hfee Ha Hb Hd Hsize Hf Hout HBB' HA' HB' Hfee'.
  assert (Hpos : (0 < a + d)%Z) by lia.
  assert (Ha51 : (a + d <= 2 ^ 51)%Z) by nia.
  assert (Hb51 : (b <= 2 ^ 51)%Z) by nia.
  (* the first leg *)
  assert (Hfrom : fromAmountInPool p (mint (tokenA p)) = Fin (inject_Z a))
    by (unfold fromAmountInPool, isReverse; rewrite HBA; exact HA).
  assert (Hto : toAmountInPool p (mint (tokenA p)) = Fin (inject_Z b))
    by (unfold toAmountInPool, isReverse; rewrite HBA; exact HB).
  assert (Hvalid : Token_equals (mint (tokenA p)) (mint (tokenA p))
                   || Token_equals (mint (tokenA p)) (mint (tokenB p)) = true)
    by (rewrite HAA; reflexivity).
  destruct (swap_on_small_integers p (mint (tokenA p)) a b d f
              Hfrom Hto Hfee Hvalid) as (e1 & _ & _ & Enet1 & He1 & Hgb1 & _);
    try assumption; try lia.
  destruct (grossOutput_product_Z a b d Hpos) as [_ Hhi1].
  set (g1 := Spec.grossOutput (inject_Z a) (inject_Z b) (inject_Z d)) in *.
  unfold calculateTokenBAmount in Hout. rewrite Enet1 in Hout.
  injection Hout as <-.
  set (n1 := (g1 - e1)%Z) in *.
  (* the updated pool *)
  rewrite HA in HA'. rewrite HB in HB'. rewrite Hfee in Hfee'.
  cbn [add] in HA'. rewrite <- inject_Z_plus, round64_Z in HA' by lia.
  cbn [sub neg add] in HB'.
  change (- inject_Z n1) with (inject_Z (- n1)) in HB'.
  rewrite <- inject_Z_plus, round64_Z in HB' by lia.
  (* the second leg *)
  assert (Hfrom' : fromAmountInPool p' (mint (tokenB p')) = Fin (inject_Z (b + - n1)))
    by (unfold fromAmountInPool, isReverse; rewrite HBB'; exact HB').
  assert (Hto' : toAmountInPool p' (mint (tokenB p')) = Fin (inject_Z (a + d)))
    by (unfold toAmountInPool, isReverse; rewrite HBB'; exact HA').
  assert (Hvalid' : Token_equals (mint (tokenB p')) (mint (tokenA p'))
                    || Token_equals (mint (tokenB p')) (mint (tokenB p')) = true)
    by (rewrite HBB'; apply orb_true_r).
  destruct (swap_on_small_integers p' (mint (tokenB p')) (b + - n1) (a + d) n1 f
              Hfrom' Hto' Hfee' Hvalid') as (e2 & _ & _ & Enet2 & He2 & _);
    try assumption; try lia.
  assert (Hpos2 : (0 < b + - n1 + n1)%Z) by lia.
  destruct (grossOutput_product_Z (b + - n1) (a + d) n1 Hpos2) as [_ Hhi2].
  set (g2 := Spec.grossOutput (inject_Z (b + - n1)) (inject_Z (a + d)) (inject_Z n1))
    in *.
  exists (g2 - e2)%Z. split.
  - unfold calculateTokenAAmount. exact Enet2.
  - replace (b + - n1 + n1)%Z with b in Hhi2 by lia.
    assert (Hn1 : (n1 * (a + d) <= g1 * (a + d))%Z)
      by (apply Z.mul_le_mono_nonneg_r; unfold n1; lia).
    assert (He2' : (0 <= b * e2)%Z) by (apply Z.mul_nonneg_nonneg; lia).
    lia.
Qed.

Lemma round_trip_bound_at_test_pool :
  exists back : Z,
    calculateTokenAAmount (localPool (1000 + 1) (2000 - 2) (1 # 4)) (Fin 2)
    = Ok (Fin (inject_Z back))
    /\ (2000 * (back - 1) < 1000 + 1 + 2000)%Z.
Proof.
  apply (@round_trip_bound localnet
           (localPool 1000 2000 (1 # 4)) (localPool (1000 + 1) (2000 - 2) (1 # 4))
           1000 2000 1 (1 # 4) (Fin 2));
    try (vm_compute; reflexivity); try (cbn; lia).
  split; unfold Qle; cbn; lia.
Defined.

(** ** The fee *)

Lemma Math_floor_mono (x y : number) :
  number_le x y -> number_le (Math_floor x) (Math_floor y).
Proof.
  destruct x as [a| | |], y as [b| | |]; cbn; try tauto.
  intros Hle. rewrite <- Zle_Qle. apply Qfloor_resp_le. exact Hle.
Qed.

(** What is left of a finite amount shrinks as what is taken off grows. *)
Lemma sub_mono_r (g : Q) (x y : number) :
  number_le x y -> number_le (Fin g - y) (Fin g - x).
Proof.
  intros Hle. unfold sub.
  destruct x as [a| | |], y as [b| | |]; cbn in Hle; try contradiction;
    cbn [neg add].
  - apply round64_mono. lra.
  - pose proof (round64_not_NaN (g + - a)) as Hn.
    destruct (round64 (g + - a)); cbn; try exact I. apply Hn. reflexivity.
  - exact I.
  - pose proof (round64_not_NaN (g + - b)) as Hn.
    destruct (round64 (g + - b)); cbn; try exact I. apply Hn. reflexivity.
  - exact I.
  - exact I.
Qed.

(** C6 (as stated, refuted).  On the pool with reserves
    (7687683055194291, 6548770760316584) a swap of 0 units of A computes
    the gross amount -1; with the fee ratio 0 it returns -1 and with the
    fee ratio 1/4 it returns 0: the greater fee ratio gives the greater
    output. *)
Lemma greater_fee_returns_more :
  calculateAmountInOtherToken
    (localPool 7687683055194291 6548770760316584 0) "A"%string (Fin 0)
  = Ok (Fin (-1))
  /\ calculateAmountInOtherToken
       (localPool 7687683055194291 6548770760316584 (1 # 4)) "A"%string (Fin 0)
     = Ok (Fin 0)
  /\ 0 <= 1 # 4
  /\ ~ number_le (Fin 0) (Fin (-1)).
Proof.
  split; [vm_compute; reflexivity|]. split; [vm_compute; reflexivity|].
  split; [discriminate|].
  intros Hle. apply Hle. reflexivity.
Qed.

(** C6 (amended).  Two snapshots with the same token accounts and finite
    fee ratios f1 <= f2, an input token of the pool and an input amount for
    which the gross amount computed is a finite number g >= 0: both swaps
    return a number, and the one computed with f2 is at most the one
    computed with f1. *)
Theorem fee_monotonicity `{TokenLayer}
  (p1 p2 : Pool) (t : Token) (f1 f2 g : Q) (inputAmount : number) :
  tokenA p2 = tokenA p1 ->
  tokenB p2 = tokenB p1 ->
  feeRatio p1 = Fin f1 ->
  feeRatio p2 = Fin f2 ->
  Token_equals t (mint (tokenA p1)) || Token_equals t (mint (tokenB p1)) = true ->
  grossToAmount (calculateSteps p1 t inputAmount) = Fin g ->
  0 <= g ->
  f1 <= f2 ->
  exists n1 n2 : number,
    calculateAmountInOtherToken p1 t inputAmount = Ok n1
    /\ calculateAmountInOtherToken p2 t inputAmount = Ok n2
    /\ number_le n2 n1.
Proof.
  intros HtA HtB Hf1 Hf2 Hvalid Hg Hg0 Hle.
  assert (Hfrom2 : fromAmountInPool p2 t = fromAmountInPool p1 t)
    by (unfold fromAmountInPool, isReverse; rewrite HtA, HtB; reflexivity).
  assert (Hto2 : toAmountInPool p2 t = toAmountInPool p1 t)
    by (unfold toAmountInPool, isReverse; rewrite HtA, HtB; reflexivity).
  assert (Hg2 : grossToAmount (calculateSteps p2 t inputAmount) = Fin g).
  { unfold calculateSteps in *. rewrite Hfrom2, Hto2.
    rewrite (gross_without_fee _ _ _ (feeRatio p1)). exact Hg. }
  eexists. eexists. split; [|split].
  - apply calculateAmountInOtherToken_accepts. exact Hvalid.
  - apply calculateAmountInOtherToken_accepts. rewrite HtA, HtB. exact Hvalid.
  - unfold calculateSteps in *. rewrite !fees_of_gross, Hg, Hg2, Hf1, Hf2.
    apply sub_mono_r, Math_floor_mono. cbn [mul].
    apply round64_mono. nra.
Qed.

Lemma fee_monotonicity_at_test_pool :
  exists n1 n2 : number,
    calculateAmountInOtherToken (localPool 1000 2000 (1 # 4)) "A"%string (Fin 5)
    = Ok n1
    /\ calculateAmountInOtherToken (localPool 1000 2000 (1 # 2)) "A"%string (Fin 5)
       = Ok n2
    /\ number_le n2 n1.
Proof.
  apply (@fee_monotonicity localnet
           (localPool 1000 2000 (1 # 4)) (localPool 1000 2000 (1 # 2)) "A"%string
           (1 # 4) (1 # 2) 10 (Fin 5));
    try (vm_compute; reflexivity);
    unfold Qle; cbn; lia.
Defined.

(** ** The assertion on the input token *)

(** C7.  A swap whose input token equals neither token A nor token B of the
    pool throws the assertion's error, whatever the amount (zero
    included): no number is returned. *)
Theorem calculateAmountInOtherToken_invalid_asset `{TokenLayer}
  (p : Pool) (t : Token) (inputAmount : number) :
  Token_equals t (mint (tokenA p)) = false ->
  Token_equals t (mint (tokenB p)) = false ->
  calculateAmountInOtherToken p t inputAmount = Throw InvalidAsset
  /\ calculateAmountInOtherToken p t (Fin 0) = Throw InvalidAsset.
Proof.
  intros HA HB. unfold calculateAmountInOtherToken.
  rewrite HA, HB. split; reflexivity.
Qed.

Lemma calculateAmountInOtherToken_invalid_asset_at_test_pool :
  calculateAmountInOtherToken (localPool 1000 2000 (1 # 4)) "C"%string (Fin 5)
  = Throw InvalidAsset
  /\ calculateAmountInOtherToken (localPool 1000 2000 (1 # 4)) "C"%string (Fin 0)
     = Throw InvalidAsset.
Proof.
  apply (@calculateAmountInOtherToken_invalid_asset localnet
           (localPool 1000 2000 (1 # 4)) "C"%string (Fin 5));
    reflexivity.
Defined.

(** ** The spot rate *)

(** C8.  On finite reserves a and b the rate is the quotient b / a of the
    language, the rational b / a rounded to binary64, when a > 0, and it is
    0, not an error, when a = 0. *)
Theorem simpleRate_cases `{TokenLayer} (p : Pool) (a b : Q) :
  balance (tokenA p) = Fin a ->
  balance (tokenB p) = Fin b ->
  (0 < a -> simpleRate p = (Fin b / Fin a)%num /\ simpleRate p = round64 (b / a))
  /\ (a == 0 -> simpleRate p = Fin 0).
Proof.
  intros HA HB. unfold simpleRate. rewrite HA, HB. cbn [gt div].
  split; intros Ha.
  - destruct (Qle_bool a 0) eqn:E.
    + apply Qle_bool_imp_le in E. exfalso; lra.
    + cbn [negb]. destruct (Qeq_bool a 0) eqn:E0.
      * apply Qeq_bool_eq in E0. exfalso; lra.
      * split; reflexivity.
  - assert (E : Qle_bool a 0 = true) by (apply Qle_bool_iff; lra).
    rewrite E. reflexivity.
Qed.

Lemma simpleRate_cases_at_test_pool :
  (simpleRate (localPool 1000 2000 (1 # 4)) = (Fin 2000 / Fin 1000)%num
   /\ simpleRate (localPool 1000 2000 (1 # 4)) = round64 (2000 / 1000))
  /\ simpleRate (localPool 0 2000 (1 # 4)) = Fin 0.
Proof.
  split.
  - apply (@simpleRate_cases localnet (localPool 1000 2000 (1 # 4)) 1000 2000);
      reflexivity.
  - apply (@simpleRate_cases localnet (localPool 0 2000 (1 # 4)) 0 2000);
      reflexivity.
Defined.

(** ** Pool-token conversions *)

(** C9.  Whatever the pool, the pool-token value of a token-B amount is the
    pool-token value of the token-A value of that amount taken as a
    pool-token amount, which is the amount itself; and the two conversions
    it composes are each the identity. *)
Theorem pool_token_conversions_are_identities `{TokenLayer} (p : Pool) (n : number) :
  getPoolTokenValueOfTokenBAmount p n
  = getPoolTokenValueOfTokenAAmount p (getTokenAValueOfPoolTokenAmount p n)
  /\ getPoolTokenValueOfTokenBAmount p n = n
  /\ getTokenAValueOfPoolTokenAmount p n = n
  /\ getPoolTokenValueOfTokenAAmount p n = n.
Proof. repeat split. Qed.

(** ** Serialisation *)

(** C10.  When a key, a token account and a token each come back from their
    own serialised form, so does a pool: [Pool.from] on [serialize] returns
    a pool whose seven fields are those of the pool serialised. *)
Theorem Pool_from_serialize `{TokenLayer} (p : Pool) :
  (forall k : PublicKey, PublicKey_new (toBase58 k) = Ok k) ->
  (forall a : TokenAccount, TokenAccount_from (TokenAccount_serialize a) = Ok a) ->
  (forall t : Token, Token_from (Token_serialize t) = Ok t) ->
  exists q : Pool,
    Pool_from (serialize p) = Ok q
    /\ address q = address p
    /\ tokenA q = tokenA p
    /\ tokenB q = tokenB p
    /\ poolToken q = poolToken p
    /\ programId q = programId p
    /\ nonce q = nonce p
    /\ feeRatio q = feeRatio p.
Proof.
  intros Hkey Haccount Htoken.
  eexists. split.
  - unfold Pool_from, serialize; cbn [s_address s_tokenA s_tokenB s_poolToken
      s_programId s_nonce s_feeRatio].
    rewrite !Hkey, !Haccount, Htoken. cbn [bind]. reflexivity.
  - cbn [address tokenA tokenB poolToken programId nonce feeRatio].
    repeat split.
Qed.

Lemma Pool_from_serialize_at_test_pool :
  exists q : @Pool localnet,
    Pool_from (serialize (localPool 1000 2000 (1 # 4))) = Ok q
    /\ address q = address (localPool 1000 2000 (1 # 4))
    /\ tokenA q = tokenA (localPool 1000 2000 (1 # 4))
    /\ tokenB q = tokenB (localPool 1000 2000 (1 # 4))
    /\ poolToken q = poolToken (localPool 1000 2000 (1 # 4))
    /\ programId q = programId (localPool 1000 2000 (1 # 4))
    /\ nonce q = nonce (localPool 1000 2000 (1 # 4))
    /\ feeRatio q = feeRatio (localPool 1000 2000 (1 # 4)).
Proof.
  apply (@Pool_from_serialize localnet (localPool 1000 2000 (1 # 4)));
    reflexivity.
Defined.

(** * Further properties of the pool *)

(** ** The range of the amount returned *)

(** X1.  On integral non-negative reserves and input amount with
    fromReserve + inputAmount > 0 and
    (fromReserve + inputAmount) * toReserve <= 2^51, with a fee ratio in
    [0, 1], a swap returns an integer that is neither negative nor above
    the output reserve: the pool is never asked for more than it holds. *)
Theorem swap_output_within_reserve `{TokenLayer}
  (p : Pool) (t : Token) (a b d : Z) (f : Q) :
  fromAmountInPool p t = Fin (inject_Z a) ->
  toAmountInPool p t = Fin (inject_Z b) ->
  feeRatio p = Fin f ->
  Token_equals t (mint (tokenA p)) || Token_equals t (mint (tokenB p)) = true ->
  (0 <= a)%Z -> (0 <= b)%Z -> (0 <= d)%Z -> (0 < a + d)%Z ->
  ((a + d) * b <= 2 ^ 51)%Z ->
  0 <= f <= 1 ->
  exists n : Z,
    calculateAmountInOtherToken p t (Fin (inject_Z d)) = Ok (Fin (inject_Z n))
    /\ (0 <= n <= b)%Z.
Proof.
  intros Hfrom Hto Hfee Hvalid Ha Hb Hd Hpos Hsize Hf.
  destruct (swap_on_small_integers p t a b d f
              Hfrom Hto Hfee Hvalid Ha Hb Hd Hpos Hsize Hf)
    as (e & _ & _ & Enet & He & Hgb & _).
  eexists. split; [exact Enet | lia].
Qed.

Lemma swap_output_within_reserve_at_test_pool :
  exists n : Z,
    calculateAmountInOtherToken (localPool 1000 2000 (1 # 4)) "A"%string
      (Fin (inject_Z 5))
    = Ok (Fin (inject_Z n))
    /\ (0 <= n <= 2000)%Z.
Proof.
  apply (@swap_output_within_reserve localnet
           (localPool 1000 2000 (1 # 4)) "A"%string 1000 2000 5 (1 # 4));
    try (vm_compute; reflexivity); try (cbn; lia).
  split; unfold Qle; cbn; lia.
Defined.

(** X2.  A swap of nothing returns nothing: on an integral input-side
    reserve a > 0 and an integral output-side reserve b >= 0 that binary64
    holds with their product (a <= 2^53 and a * b <= 2^53), whatever the
    finite fee ratio, the amount returned for an input of 0 is 0. *)
Theorem swap_of_zero_returns_zero `{TokenLayer}
  (p : Pool) (t : Token) (a b : Z) (f : Q) :
  fromAmountInPool p t = Fin (inject_Z a) ->
  toAmountInPool p t = Fin (inject_Z b) ->
  feeRatio p = Fin f ->
  Token_equals t (mint (tokenA p)) || Token_equals t (mint (tokenB p)) = true ->
  (0 < a <= 2 ^ 53)%Z -> (0 <= b)%Z -> (a * b <= 2 ^ 53)%Z ->
  calculateAmountInOtherToken p t (Fin 0) = Ok (Fin 0).
Proof.
  intros Hfrom Hto Hfee Hvalid Ha Hb Hsize.
  rewrite calculateAmountInOtherToken_accepts by exact Hvalid.
  unfold calculateSteps. rewrite Hfrom, Hto, Hfee, fees_of_gross.
  assert (Hb53 : (b <= 2 ^ 53)%Z) by nia.
  assert (Haq : 0 < inject_Z a) by (apply inject_Z_pos; lia).
  assert (Hg : grossToAmount (swapSteps (Fin (inject_Z a)) (Fin (inject_Z b))
                                (Fin f) (Fin 0)) = Fin 0).
  { unfold swapSteps. cbn [grossToAmount mul add].
    rewrite <- inject_Z_mult, round64_Z by lia.
    assert (Es : inject_Z a + 0 == inject_Z a) by ring.
    rewrite (round64_comp _ _ Es), round64_Z by lia.
    cbn [div].
    assert (Enz : Qeq_bool (inject_Z a) 0 = false).
    { destruct (Qeq_bool (inject_Z a) 0) eqn:E; [|reflexivity].
      apply Qeq_bool_eq in E. exfalso; lra. }
    rewrite Enz.
    assert (Eq : inject_Z (a * b) / inject_Z a == inject_Z b).
    { rewrite inject_Z_mult. field. lra. }
    rewrite (round64_comp _ _ Eq), round64_Z by lia.
    cbn [sub neg add].
    rewrite (round64_zero (inject_Z b + - inject_Z b)) by ring.
    reflexivity. }
  rewrite Hg. cbn [mul].
  rewrite (round64_zero (0 * f)) by ring.
  reflexivity.
Qed.

Lemma swap_of_zero_returns_zero_at_test_pool :
  calculateAmountInOtherToken (localPool 1000 2000 (1 # 4)) "B"%string (Fin 0)
  = Ok (Fin 0).
Proof.
  apply (@swap_of_zero_returns_zero localnet
           (localPool 1000 2000 (1 # 4)) "B"%string 2000 1000 (1 # 4));
    try (vm_compute; reflexivity); cbn; lia.
Defined.

(** X4.  The two ends of the fee scale: whenever the gross amount computed
    is a finite number, a fee ratio of 0 returns the gross amount whole and
    a fee ratio of 1 returns 0. *)
Theorem swap_fee_extremes `{TokenLayer}
  (p : Pool) (t : Token) (f g : Q) (inputAmount : number) :
  feeRatio p = Fin f ->
  Token_equals t (mint (tokenA p)) || Token_equals t (mint (tokenB p)) = true ->
  grossToAmount (calculateSteps p t inputAmount) = Fin g ->
  (f == 0 ->
   calculateAmountInOtherToken p t inputAmount
   = Ok (grossToAmount (calculateSteps p t inputAmount)))
  /\ (f == 1 -> calculateAmountInOtherToken p t inputAmount = Ok (Fin 0)).
Proof.
  intros Hfee Hvalid Hg.
  rewrite calculateAmountInOtherToken_accepts by exact Hvalid.
  unfold calculateSteps in *. rewrite Hfee in *.
  rewrite fees_of_gross, Hg.
  destruct (grossToAmount_finite_inv _ _ _ _ _ Hg) as (z & -> & Ez).
  split; intros Hf; f_equal; cbn [mul].
  - rewrite (round64_zero (inject_Z z * f)) by (rewrite Hf; ring).
    cbn [Math_floor sub neg add].
    assert (E : inject_Z z + - inject_Z (Qfloor 0) == inject_Z z).
    { change (inject_Z (Qfloor 0)) with 0. ring. }
    rewrite (round64_comp _ _ E). exact Ez.
  - assert (E : inject_Z z * f == inject_Z z) by (rewrite Hf; ring).
    rewrite (round64_comp _ _ E), Ez.
    cbn [Math_floor sub neg add]. rewrite Qfloor_Z.
    apply round64_zero. ring.
Qed.

Lemma swap_fee_extremes_at_test_pool :
  calculateAmountInOtherToken (localPool 1000 2000 0) "A"%string (Fin 5)
  = Ok (grossToAmount (calculateSteps (localPool 1000 2000 0) "A"%string (Fin 5)))
  /\ calculateAmountInOtherToken (localPool 1000 2000 1) "A"%string (Fin 5)
     = Ok (Fin 0).
Proof.
  split.
  - apply (@swap_fee_extremes localnet
             (localPool 1000 2000 0) "A"%string 0 10 (Fin 5));
      vm_compute; reflexivity.
  - apply (@swap_fee_extremes localnet
             (localPool 1000 2000 1) "A"%string 1 10 (Fin 5));
      vm_compute; reflexivity.
Defined.

(** X13.  Because the gross amount is rounded up, any positive input takes
    at least one unit out of the pool before the fee: on integral reserves
    a >= 0 and b >= 1 and an integral input d >= 1 with
    (a + d) * b <= 2^51, the gross amount computed is the exact
    ceiling(b - a * b / (a + d)), an integer between 1 and b. *)
Theorem positive_input_takes_a_unit `{TokenLayer}
  (p : Pool) (t : Token) (a b d : Z) :
  fromAmountInPool p t = Fin (inject_Z a) ->
  toAmountInPool p t = Fin (inject_Z b) ->
  (0 <= a)%Z -> (1 <= b)%Z -> (1 <= d)%Z ->
  ((a + d) * b <= 2 ^ 51)%Z ->
  grossToAmount (calculateSteps p t (Fin (inject_Z d)))
  = Fin (inject_Z (Spec.grossOutput (inject_Z a) (inject_Z b) (inject_Z d)))
  /\ (1 <= Spec.grossOutput (inject_Z a) (inject_Z b) (inject_Z d) <= b)%Z.
Proof.
  intros Hfrom Hto Ha Hb Hd Hsize.
  assert (Hpos : (0 < a + d)%Z) by lia.
  assert (HDq : 0 < inject_Z a + inject_Z d).
  { rewrite <- inject_Z_plus. apply inject_Z_pos. exact Hpos. }
  unfold calculateSteps. rewrite Hfrom, Hto.
  split; [apply gross_exact; lia|].
  split.
  - assert (Hs : (inject_Z a + inject_Z d)
                 * (inject_Z b - inject_Z a * inject_Z b / (inject_Z a + inject_Z d))
                 == inject_Z b * inject_Z d)
      by (apply output_share; lra).
    pose proof (Qle_ceiling
                  (inject_Z b - inject_Z a * inject_Z b / (inject_Z a + inject_Z d)))
      as Hceil.
    fold (Spec.grossOutput (inject_Z a) (inject_Z b) (inject_Z d)) in Hceil.
    assert (Hbq : 0 < inject_Z b) by (apply inject_Z_pos; lia).
    assert (Hdq : 0 < inject_Z d) by (apply inject_Z_pos; lia).
    set (y := inject_Z b - inject_Z a * inject_Z b / (inject_Z a + inject_Z d)) in *.
    assert (Hy : 0 < y) by nra.
    assert (Hgq : inject_Z 0 < inject_Z (Spec.grossOutput (inject_Z a) (inject_Z b)
                                           (inject_Z d)))
      by (change (inject_Z 0) with 0; lra).
    rewrite <- Zlt_Qlt in Hgq. lia.
  - apply grossOutput_le_reserve;
      [apply inject_Z_nonneg; lia | reflexivity | lia | exact HDq].
Qed.

Lemma positive_input_takes_a_unit_at_test_pool :
  grossToAmount (calculateSteps (localPool 1000 2000 (1 # 4)) "A"%string
                   (Fin (inject_Z 1)))
  = Fin (inject_Z (Spec.grossOutput (inject_Z 1000) (inject_Z 2000) (inject_Z 1)))
  /\ (1 <= Spec.grossOutput (inject_Z 1000) (inject_Z 2000) (inject_Z 1) <= 2000)%Z.
Proof.
  apply (@positive_input_takes_a_unit localnet
           (localPool 1000 2000 (1 # 4)) "A"%string 1000 2000 1);
    try (vm_compute; reflexivity); cbn; lia.
Defined.

(** ** The implied rate *)

(** X5.  For a token of the pool and an amount that is not greater than 0
    (zero, negative or NaN) the implied rate is 0, whatever the reserves
    and the fee ratio, an empty pool included; for a token that is not of
    the pool the call throws whatever the amount, 0 included, since the
    swap is computed before the amount is looked at. *)
Theorem impliedRate_without_amount `{TokenLayer} (p : Pool) (t : Token) :
  (Token_equals t (mint (tokenA p)) || Token_equals t (mint (tokenB p)) = true ->
   forall fromAmount : number,
     (fromAmount > Fin 0)%num = false ->
     impliedRate p t fromAmount = Ok (Fin 0))
  /\ (Token_equals t (mint (tokenA p)) || Token_equals t (mint (tokenB p)) = false ->
      forall fromAmount : number,
        impliedRate p t fromAmount = Throw InvalidAsset).
Proof.
  unfold impliedRate, calculateAmountInOtherToken.
  split; intros Hvalid fromAmount; rewrite Hvalid; cbn [assert bind].
  - intros Hamount. rewrite Hamount. reflexivity.
  - reflexivity.
Qed.

Lemma impliedRate_without_amount_at_test_pool :
  impliedRate (localPool 0 0 (1 # 4)) "A"%string (Fin 0) = Ok (Fin 0)
  /\ impliedRate (localPool 1000 2000 (1 # 4)) "C"%string (Fin 0)
     = Throw InvalidAsset.
Proof.
  split.
  - apply (@impliedRate_without_amount localnet
             (localPool 0 0 (1 # 4)) "A"%string); reflexivity.
  - apply (@impliedRate_without_amount localnet
             (localPool 1000 2000 (1 # 4)) "C"%string); reflexivity.
Defined.

(** ** The guard on the two accounts of a swap *)

(** X7.  [matches] does not depend on the order of the two accounts. *)
Theorem matches_either_order `{TokenLayer}
  (p : Pool) (fromTokenAccount toTokenAccount : TokenAccount) :
  matches p fromTokenAccount toTokenAccount
  = matches p toTokenAccount fromTokenAccount.
Proof.
  unfold matches.
  destruct (Token_equals (mint (tokenA p)) (mint fromTokenAccount)),
           (Token_equals (mint (tokenB p)) (mint toTokenAccount)),
           (Token_equals (mint (tokenB p)) (mint fromTokenAccount)),
           (Token_equals (mint (tokenA p)) (mint toTokenAccount));
    reflexivity.
Qed.

(** X8.  When the comparison of tokens is symmetric, two accounts that
    [matches] accepts can be swapped in either direction: the swap from the
    mint of either account passes the assertion, whatever the amount. *)
Theorem matches_implies_swap_accepted `{TokenLayer}
  (p : Pool) (fromTokenAccount toTokenAccount : TokenAccount) (amount : number) :
  (forall x y : Token, Token_equals x y = Token_equals y x) ->
  matches p fromTokenAccount toTokenAccount = true ->
  (exists out : number,
     calculateAmountInOtherToken p (mint fromTokenAccount) amount = Ok out)
  /\ (exists back : number,
        calculateAmountInOtherToken p (mint toTokenAccount) amount = Ok back).
Proof.
  intros Hsym Hmatch. unfold matches in Hmatch.
  assert (Hfrom : Token_equals (mint fromTokenAccount) (mint (tokenA p))
                  || Token_equals (mint fromTokenAccount) (mint (tokenB p)) = true).
  { rewrite (Hsym (mint fromTokenAccount) (mint (tokenA p))),
            (Hsym (mint fromTokenAccount) (mint (tokenB p))).
    destruct (Token_equals (mint (tokenA p)) (mint fromTokenAccount)),
             (Token_equals (mint (tokenB p)) (mint fromTokenAccount));
      try reflexivity; discriminate Hmatch. }
  assert (Hto : Token_equals (mint toTokenAccount) (mint (tokenA p))
                || Token_equals (mint toTokenAccount) (mint (tokenB p)) = true).
  { rewrite (Hsym (mint toTokenAccount) (mint (tokenA p))),
            (Hsym (mint toTokenAccount) (mint (tokenB p))).
    destruct (Token_equals (mint (tokenA p)) (mint toTokenAccount)),
             (Token_equals (mint (tokenB p)) (mint toTokenAccount));
      try reflexivity.
    rewrite !andb_false_r in Hmatch. discriminate Hmatch. }
  split; eexists; apply calculateAmountInOtherToken_accepts; assumption.
Qed.

Lemma matches_implies_swap_accepted_at_test_pool :
  (exists out : number,
     calculateAmountInOtherToken (localPool 1000 2000 (1 # 4)) "B"%string (Fin 5)
     = Ok out)
  /\ (exists back : number,
        calculateAmountInOtherToken (localPool 1000 2000 (1 # 4)) "A"%string (Fin 5)
        = Ok back).
Proof.
  apply (@matches_implies_swap_accepted localnet
           (localPool 1000 2000 (1 # 4))
           {| l_mint := "B"; l_balance := Fin 7 |}
           {| l_mint := "A"; l_balance := Fin 9 |}
           (Fin 5)).
  - intros x y. apply String.eqb_sym.
  - reflexivity.
Defined.

(** ** The conversions that go through a swap *)

(** X9.  On a pool with two distinct tokens, integral reserves a > 0 of A
    and b >= 0 of B and a fee ratio in [0, 1], the token-B value of an
    integral pool-token amount n >= 0 with (a + n) * b <= 2^51 is an
    integer between 0 and b, and it is 0 for n = 0. *)
Theorem getTokenBValueOfPoolTokenAmount_range `{TokenLayer}
  (p : Pool) (a b n : Z) (f : Q) :
  Token_equals (mint (tokenA p)) (mint (tokenA p)) = true ->
  Token_equals (mint (tokenB p)) (mint (tokenA p)) = false ->
  balance (tokenA p) = Fin (inject_Z a) ->
  balance (tokenB p) = Fin (inject_Z b) ->
  feeRatio p = Fin f ->
  (0 < a)%Z -> (0 <= b)%Z -> (0 <= n)%Z -> ((a + n) * b <= 2 ^ 51)%Z ->
  0 <= f <= 1 ->
  exists v : Z,
    getTokenBValueOfPoolTokenAmount p (Fin (inject_Z n)) = Ok (Fin (inject_Z v))
    /\ (0 <= v <= b)%Z
    /\ (n = 0%Z -> v = 0%Z).
Proof.
  intros HAA HBA HA HB Hfee Ha Hb Hn Hsize Hf.
  assert (Hfrom : fromAmountInPool p (mint (tokenA p)) = Fin (inject_Z a))
    by (unfold fromAmountInPool, isReverse; rewrite HBA; exact HA).
  assert (Hto : toAmountInPool p (mint (tokenA p)) = Fin (inject_Z b))
    by (unfold toAmountInPool, isReverse; rewrite HBA; exact HB).
  assert (Hvalid : Token_equals (mint (tokenA p)) (mint (tokenA p))
                   || Token_equals (mint (tokenA p)) (mint (tokenB p)) = true)
    by (rewrite HAA; reflexivity).
  destruct (swap_on_small_integers p (mint (tokenA p)) a b n f
              Hfrom Hto Hfee Hvalid) as (e & _ & _ & Enet & He & Hgb & _);
    try assumption; try lia.
  eexists. split; [|split].
  - unfold getTokenBValueOfPoolTokenAmount, getTokenAValueOfPoolTokenAmount,
      calculateTokenBAmount. exact Enet.
  - lia.
  - intros ->.
    assert (Hg0 : Spec.grossOutput (inject_Z a) (inject_Z b) (inject_Z 0) = 0%Z).
    { apply grossOutput_zero_input. pose proof (inject_Z_pos a Ha). lra. }
    rewrite Hg0 in *. lia.
Qed.

Lemma getTokenBValueOfPoolTokenAmount_range_at_test_pool :
  exists v : Z,
    getTokenBValueOfPoolTokenAmount (localPool 1000 2000 (1 # 4)) (Fin (inject_Z 10))
    = Ok (Fin (inject_Z v))
    /\ (0 <= v <= 2000)%Z
    /\ (10%Z = 0%Z -> v = 0%Z).
Proof.
  apply (@getTokenBValueOfPoolTokenAmount_range localnet
           (localPool 1000 2000 (1 # 4)) 1000 2000 10 (1 # 4));
    try (vm_compute; reflexivity); try (cbn; lia).
  split; unfold Qle; cbn; lia.
Defined.

(** X10.  The direction of a swap is decided by comparing the input token
    with token B alone.  On a pool whose two accounts hold the same token,
    the conversion of a token-A amount therefore takes B's balance as the
    input side, and returns what the conversion of the same token-B amount
    returns, whatever the amount. *)
Theorem same_mint_pool_prices_one_direction `{TokenLayer}
  (p : Pool) (amount : number) :
  Token_equals (mint (tokenA p)) (mint (tokenA p)) = true ->
  Token_equals (mint (tokenB p)) (mint (tokenB p)) = true ->
  Token_equals (mint (tokenB p)) (mint (tokenA p)) = true ->
  fromAmountInPool p (mint (tokenA p)) = balance (tokenB p)
  /\ calculateTokenBAmount p amount = calculateTokenAAmount p amount.
Proof.
  intros HAA HBB HBA. split.
  - unfold fromAmountInPool, isReverse. rewrite HBA. reflexivity.
  - unfold calculateTokenBAmount, calculateTokenAAmount.
    rewrite !calculateAmountInOtherToken_accepts
      by (rewrite ?HAA, ?HBA; reflexivity).
    unfold calculateSteps, fromAmountInPool, toAmountInPool, isReverse.
    rewrite HBA, HBB. reflexivity.
Qed.

Lemma same_mint_pool_prices_one_direction_at_test_pool :
  fromAmountInPool
    (@Build_Pool localnet "pool"%string
       {| l_mint := "A"; l_balance := Fin 1000 |}
       {| l_mint := "A"; l_balance := Fin 2000 |}
       "P"%string "swap"%string (Fin 255) (Fin (1 # 4)))
    "A"%string
  = Fin 2000
  /\ calculateTokenBAmount
       (@Build_Pool localnet "pool"%string
          {| l_mint := "A"; l_balance := Fin 1000 |}
          {| l_mint := "A"; l_balance := Fin 2000 |}
          "P"%string "swap"%string (Fin 255) (Fin (1 # 4)))
       (Fin 5)
     = calculateTokenAAmount
         (@Build_Pool localnet "pool"%string
            {| l_mint := "A"; l_balance := Fin 1000 |}
            {| l_mint := "A"; l_balance := Fin 2000 |}
            "P"%string "swap"%string (Fin 255) (Fin (1 # 4)))
         (Fin 5).
Proof.
  apply (@same_mint_pool_prices_one_direction localnet
           (@Build_Pool localnet "pool"%string
              {| l_mint := "A"; l_balance := Fin 1000 |}
              {| l_mint := "A"; l_balance := Fin 2000 |}
              "P"%string "swap"%string (Fin 255) (Fin (1 # 4)))
           (Fin 5));
    reflexivity.
Defined.

(** ** The spot rate, again *)

(** X11.  Whatever the balance of token A (negative, infinite or NaN
    included), on a finite non-negative balance of token B the spot rate is
    neither NaN nor negative: the guard keeps the division away from zero
    and from negative divisors.  It can be infinite, when the quotient
    overflows. *)
Theorem simpleRate_not_negative `{TokenLayer} (p : Pool) (b : Q) :
  balance (tokenB p) = Fin b ->
  0 <= b ->
  number_le (Fin 0) (simpleRate p).
Proof.
  intros HB Hb. unfold simpleRate. rewrite HB.
  destruct (balance (tokenA p)) as [a| | |]; cbn [gt div].
  - destruct (Qle_bool a 0) eqn:E; cbn [negb].
    + cbn. lra.
    + assert (Ha : 0 < a).
      { destruct (Qlt_le_dec 0 a) as [Hlt|Hle]; [exact Hlt|].
        apply Qle_bool_iff in Hle. rewrite Hle in E. discriminate E. }
      destruct (Qeq_bool a 0) eqn:E0.
      * apply Qeq_bool_eq in E0. exfalso; lra.
      * change (Fin 0) with (round64 0). apply round64_mono.
        apply Qle_shift_div_l; [exact Ha | lra].
  - cbn. lra.
  - cbn. lra.
  - cbn. lra.
Qed.

Lemma simpleRate_not_negative_at_test_pool :
  number_le (Fin 0) (simpleRate (localPool (-3) 2000 (1 # 4))).
Proof.
  apply (@simpleRate_not_negative localnet (localPool (-3) 2000 (1 # 4)) 2000).
  - reflexivity.
  - unfold Qle; cbn; lia.
Defined.

(** ** Beyond the small integers

    Past the bound on (fromReserve + inputAmount) * toReserve the rounded
    product and quotient reach the integers around the exact difference:
    the gross amount can be one unit below the exact one, a swap of nothing
    can return a unit, and a round trip can exceed the bound of the small
    integers. *)

Example gross_amount_one_unit_below :
  grossToAmount
    (calculateSteps (localPool 24901978364 8976255684 (1 # 4)) "A"%string (Fin 68401))
  = Fin 24656
  /\ Spec.grossOutput 24901978364 8976255684 68401 = 24657%Z.
Proof. split; vm_compute; reflexivity. Qed.

Example swap_of_nothing_returns_a_unit :
  calculateAmountInOtherToken
    (localPool 114579439 129006763 (1 # 4)) "A"%string (Fin 0)
  = Ok (Fin 1).
Proof. vm_compute; reflexivity. Qed.

Example round_trip_of_a_large_pool :
  calculateTokenBAmount (localPool 380025403 380025406 (1 # 4)) (Fin 1) = Ok (Fin 2)
  /\ calculateTokenAAmount
       (localPool (380025403 + 1) (380025406 - 2) (1 # 4)) (Fin 2)
     = Ok (Fin 3).
Proof. split; vm_compute; reflexivity. Qed.

(** ** Serialisation, again *)

Lemma bind_Ok_inv (A B : Type) (r : result A) (k : A -> result B) (b : B) :
  (x <- r ;; k x) = Ok b -> exists a : A, r = Ok a /\ k a = Ok b.
Proof.
  destruct r as [a|e]; cbn [bind]; intros Hk.
  - exists a. split; [reflexivity | exact Hk].
  - discriminate Hk.
Qed.

(** X12.  [Pool.from] returns a pool exactly when the five conversions of
    its components return their parts of that pool; the nonce and the fee
    ratio are copied as they are and never make the call fail. *)
Theorem Pool_from_succeeds_iff `{TokenLayer} (s : SerializablePool) (q : Pool) :
  Pool_from s = Ok q <->
  PublicKey_new (s_address s) = Ok (address q)
  /\ TokenAccount_from (s_tokenA s) = Ok (tokenA q)
  /\ TokenAccount_from (s_tokenB s) = Ok (tokenB q)
  /\ Token_from (s_poolToken s) = Ok (poolToken q)
  /\ PublicKey_new (s_programId s) = Ok (programId q)
  /\ nonce q = s_nonce s
  /\ feeRatio q = s_feeRatio s.
Proof.
  unfold Pool_from. split.
  - intros Hfrom.
    apply bind_Ok_inv in Hfrom as (k1 & E1 & Hfrom).
    apply bind_Ok_inv in Hfrom as (a1 & E2 & Hfrom).
    apply bind_Ok_inv in Hfrom as (a2 & E3 & Hfrom).
    apply bind_Ok_inv in Hfrom as (t1 & E4 & Hfrom).
    apply bind_Ok_inv in Hfrom as (k2 & E5 & Hfrom).
    injection Hfrom as <-.
    cbn [address tokenA tokenB poolToken programId nonce feeRatio].
    repeat split; assumption.
  - intros (E1 & E2 & E3 & E4 & E5 & E6 & E7).
    rewrite E1, E2, E3, E4, E5. cbn [bind].
    rewrite <- E6, <- E7. destruct q as [k a b t g n r]; reflexivity.
Qed.

(** X14.  When a key, a token account and a token each come back from
    their own serialised form, two pools with the same serialised form are
    the same pool: nothing of a snapshot is lost in [serialize]. *)
Theorem serialize_injective `{TokenLayer} (p1 p2 : Pool) :
  (forall k : PublicKey, PublicKey_new (toBase58 k) = Ok k) ->
  (forall a : TokenAccount, TokenAccount_from (TokenAccount_serialize a) = Ok a) ->
  (forall t : Token, Token_from (Token_serialize t) = Ok t) ->
  serialize p1 = serialize p2 ->
  p1 = p2.
Proof.
  intros Hkey Haccount Htoken Heq.
  assert (Kinj : forall k1 k2 : PublicKey, toBase58 k1 = toBase58 k2 -> k1 = k2).
  { intros k1 k2 E. pose proof (Hkey k1) as E1. rewrite E, Hkey in E1.
    injection E1 as E1. symmetry; exact E1. }
  assert (Ainj : forall a1 a2 : TokenAccount,
             TokenAccount_serialize a1 = TokenAccount_serialize a2 -> a1 = a2).
  { intros a1 a2 E. pose proof (Haccount a1) as E1. rewrite E, Haccount in E1.
    injection E1 as E1. symmetry; exact E1. }
  assert (Tinj : forall t1 t2 : Token,
             Token_serialize t1 = Token_serialize t2 -> t1 = t2).
  { intros t1 t2 E. pose proof (Htoken t1) as E1. rewrite E, Htoken in E1.
    injection E1 as E1. symmetry; exact E1. }
  destruct p1 as [k1 a1 b1 t1 g1 n1 r1], p2 as [k2 a2 b2 t2 g2 n2 r2].
  unfold serialize in Heq.
  cbn [address tokenA tokenB poolToken programId nonce feeRatio] in Heq.
  injection Heq as E1 E2 E3 E4 E5 E6 E7.
  apply Kinj in E1, E5. apply Ainj in E2, E3. apply Tinj in E4.
  subst. reflexivity.
Qed.

Lemma serialize_injective_at_test_pool :
  localPool 1000 2000 (1 # 4) = localPool 1000 2000 (1 # 4).
Proof.
  apply (@serialize_injective localnet
           (localPool 1000 2000 (1 # 4)) (localPool 1000 2000 (1 # 4)));
    reflexivity.
Defined.

(** * Properties of the global slice *)

Lemma accepted_cons `{ActionLayer} (test : Action -> bool)
  (action : Action) (rest : list Action) :
  accepted test (action :: rest)
  = ((if test action then 1 else 0) + accepted test rest)%Z.
Proof.
  unfold accepted. cbn [filter].
  destruct (test action); cbn [List.length]; lia.
Qed.

Lemma dispatchAll_cons `{ActionLayer}
  (state : GlobalState) (action : Action) (rest : list Action) :
  dispatchAll state (action :: rest)
  = (fst (dispatchAll (fst (reducer state action)) rest),
     snd (reducer state action) ++ snd (dispatchAll (fst (reducer state action)) rest)).
Proof.
  cbn [dispatchAll].
  destruct (reducer state action) as [s1 shown1]. cbn [fst snd].
  destruct (dispatchAll s1 rest) as [s2 shown2].
  reflexivity.
Qed.

(** One more and one less of an integer counter, as long as binary64 holds
    the result. *)
Lemma counter_up (z : Z) :
  (Z.abs (z + 1) <= 2 ^ 53)%Z ->
  (Fin (inject_Z z) + Fin 1)%num = Fin (inject_Z (z + 1)).
Proof.
  intros Hz. cbn [add]. change 1 with (inject_Z 1).
  rewrite <- inject_Z_plus. apply round64_Z. exact Hz.
Qed.

Lemma counter_down (z : Z) :
  (Z.abs (z - 1) <= 2 ^ 53)%Z ->
  (Fin (inject_Z z) - Fin 1)%num = Fin (inject_Z (z - 1)).
Proof.
  intros Hz. cbn [sub neg add]. change (- (1)) with (inject_Z (- 1)).
  rewrite <- inject_Z_plus. apply round64_Z. exact Hz.
Qed.

Lemma reducer_loading `{ActionLayer} (state : GlobalState) (action : Action) (z : Z) :
  loading state = Fin (inject_Z z) ->
  (Z.abs z + 2 <= 2 ^ 53)%Z ->
  loading (fst (reducer state action))
  = Fin (inject_Z (z + (if isPendingAction action then 1 else 0)
                   - (if isRejectedAction action then 1 else 0)
                   - (if isFulfilledAction action then 1 else 0))).
Proof.
  intros Hz Hsize. unfold reducer.
  destruct (isGetAvailableTokensFulfilled action), (isPendingAction action),
           (isRejectedAction action), (isFulfilledAction action);
    cbn [onGetAvailableTokensFulfilled onPending onRejected onFulfilled
         loading fst];
    rewrite Hz;
    rewrite ?counter_up by lia;
    rewrite ?counter_down by lia;
    rewrite ?counter_down by lia;
    f_equal; f_equal; lia.
Qed.

Lemma reducer_error `{ActionLayer} (state : GlobalState) (action : Action) :
  error (fst (reducer state action))
  = if isRejectedAction action then Some (error_message action) else error state.
Proof.
  unfold reducer.
  destruct (isGetAvailableTokensFulfilled action), (isPendingAction action),
           (isRejectedAction action), (isFulfilledAction action);
    reflexivity.
Qed.

Lemma reducer_availableTokens `{ActionLayer} (state : GlobalState) (action : Action) :
  availableTokens (fst (reducer state action))
  = if isGetAvailableTokensFulfilled action then payload action
    else availableTokens state.
Proof.
  unfold reducer.
  destruct (isGetAvailableTokensFulfilled action), (isPendingAction action),
           (isRejectedAction action), (isFulfilledAction action);
    reflexivity.
Qed.

Lemma reducer_shown `{ActionLayer} (state : GlobalState) (action : Action) :
  snd (reducer state action)
  = if isRejectedAction action then [error_message action] else [].
Proof.
  unfold reducer.
  destruct (isGetAvailableTokensFulfilled action), (isPendingAction action),
           (isRejectedAction action), (isFulfilledAction action);
    reflexivity.
Qed.

(** X15.  The loading counter is a plain tally: from an integer z, after a
    sequence of actions short enough for binary64 to count it (|z| plus
    twice its length at most 2^53), it is z plus the number of actions the
    pending matcher accepted, minus the number the rejected matcher
    accepted, minus the number the fulfilled matcher accepted.  Nothing
    keeps it from going below zero. *)
Theorem loading_is_a_tally `{ActionLayer}
  (actions : list Action) (state : GlobalState) (z : Z) :
  loading state = Fin (inject_Z z) ->
  (Z.abs z + 2 * Z.of_nat (List.length actions) <= 2 ^ 53)%Z ->
  loading (fst (dispatchAll state actions))
  = Fin (inject_Z (z + accepted isPendingAction actions
                   - accepted isRejectedAction actions
                   - accepted isFulfilledAction actions)).
Proof.
  revert state z.
  induction actions as [|action rest IH]; intros state z Hz Hsize.
  - cbn [dispatchAll fst]. rewrite Hz. unfold accepted; cbn.
    do 2 f_equal. lia.
  - cbn [List.length] in Hsize.
    rewrite dispatchAll_cons. cbn [fst].
    rewrite (IH _ _ (reducer_loading state action z Hz ltac:(lia)))
      by (destruct (isPendingAction action), (isRejectedAction action),
                   (isFulfilledAction action); lia).
    rewrite !accepted_cons. do 2 f_equal. lia.
Qed.

Lemma loading_is_a_tally_at_local_store :
  loading (fst (dispatchAll (H0 := localActions) initialState
                  [Pending; Pending; TokensFulfilled ["A"%string];
                   Rejected "no network"; Fulfilled; Unrelated]))
  = Fin (inject_Z
           (0 + accepted (H0 := localActions) isPendingAction
                  [Pending; Pending; TokensFulfilled ["A"%string];
                   Rejected "no network"; Fulfilled; Unrelated]
            - accepted (H0 := localActions) isRejectedAction
                [Pending; Pending; TokensFulfilled ["A"%string];
                 Rejected "no network"; Fulfilled; Unrelated]
            - accepted (H0 := localActions) isFulfilledAction
                [Pending; Pending; TokensFulfilled ["A"%string];
                 Rejected "no network"; Fulfilled; Unrelated])).
Proof.
  apply (@loading_is_a_tally localnet localActions
           [Pending; Pending; TokensFulfilled ["A"%string];
            Rejected "no network"; Fulfilled; Unrelated]
           initialState 0).
  - reflexivity.
  - cbn. lia.
Defined.

(** X16.  After any sequence of actions the error of the store is the
    message of the last action the rejected matcher accepted, and the
    error held before when there is none: no action clears an error, so
    once set it is never null again. *)
Theorem error_is_last_rejection `{ActionLayer}
  (actions : list Action) (state : GlobalState) :
  error (fst (dispatchAll state actions))
  = match lastRejected actions with
    | Some message => Some message
    | None => error state
    end
  /\ (error state <> None -> error (fst (dispatchAll state actions)) <> None).
Proof.
  assert (Hlast : forall (l : list Action) (s : GlobalState),
             error (fst (dispatchAll s l))
             = match lastRejected l with
               | Some message => Some message
               | None => error s
               end).
  { induction l as [|action rest IH]; intros s.
    - reflexivity.
    - rewrite dispatchAll_cons. cbn [fst lastRejected].
      rewrite IH, reducer_error.
      destruct (lastRejected rest); [reflexivity|].
      destruct (isRejectedAction action); reflexivity. }
  split; [apply Hlast|].
  intros Hset. rewrite Hlast.
  destruct (lastRejected actions); [discriminate | exact Hset].
Qed.

(** X17.  The messages shown to the user over a sequence of actions are
    the messages of the actions the rejected matcher accepted, in their
    order, one each. *)
Theorem shown_are_the_rejections `{ActionLayer}
  (actions : list Action) (state : GlobalState) :
  snd (dispatchAll state actions)
  = map error_message (filter isRejectedAction actions).
Proof.
  revert state.
  induction actions as [|action rest IH]; intros state.
  - reflexivity.
  - rewrite dispatchAll_cons. cbn [snd filter].
    rewrite IH, reducer_shown.
    destruct (isRejectedAction action); reflexivity.
Qed.

(** X18.  After any sequence of actions the available tokens are the
    payload of the last fulfilled [getAvailableTokens] of the sequence, and
    the tokens held before when there is none: pending, rejected and other
    fulfilled actions leave them alone. *)
Theorem availableTokens_is_last_payload `{ActionLayer}
  (actions : list Action) (state : GlobalState) :
  availableTokens (fst (dispatchAll state actions))
  = match lastTokens actions with
    | Some tokens => tokens
    | None => availableTokens state
    end.
Proof.
  revert state.
  induction actions as [|action rest IH]; intros state.
  - reflexivity.
  - rewrite dispatchAll_cons. cbn [fst lastTokens].
    rewrite IH, reducer_availableTokens.
    destruct (lastTokens rest); [reflexivity|].
    destruct (isGetAvailableTokensFulfilled action); reflexivity.
Qed.
